(** * storage-facade-localstorage: the [LocalStorageInterface] adapter

    A shallow embedding of [src/index.ts] and the properties of its
    bookkeeping protocol: namespaced physical keys, the persisted key index,
    the wrapped values and the optional in-memory mirror.

    Conventions of the embedding.
    - [window.localStorage] is an interface ([Storage]): any type of medium
      states with [getItem], [setItem] and [removeItem], each of which may
      throw and may change the medium.  [localStorage] is the instance that
      never throws, a finite map from physical keys to texts.
    - A method of the class is a computation [js A]: it takes the instance
      fields and the medium, and gives back a completion (a normal result or
      a thrown exception) together with the fields and the medium as the
      method left them.  A throw keeps the mutations made before it, as in
      JavaScript.
    - The medium holds strings.  The adapter writes only what
      [JSON.stringify] prints and reads only through [JSON.parse], so a text
      is represented by the JSON document it denotes ([Json d]), or is a
      string that [JSON.parse] rejects ([NotJson s]).
    - A logical value ([unknown] in the source) is a JavaScript value
      ([value]): [undefined], [null], booleans, numbers ([NaN] and the
      infinities included), BigInts, strings, dates, functions, arrays and
      plain objects.  [JSON.stringify] loses some of them ([NaN] becomes
      [null], a date becomes a string, an [undefined] member is dropped) and
      throws on a BigInt; [structuredClone] keeps them all but throws on a
      function.  Values are finite trees, so there are no cyclic ones; an
      object has no [toJSON] method of its own and no accessors.  Since
      values are immutable here, a clone is the value itself.  Other kinds
      of values (maps, sets, symbols, instances of classes) are not
      modelled.
    - The type annotations of the source are not checked when it runs:
      [JSON.parse(keysStr) as string[]] is whatever document the index
      record holds.  The key index in the hands of the methods is therefore
      a parsed document ([json]), an array of strings [keys] being
      [strings keys], and the array operations on it follow what JavaScript
      does on any parsed document, as does the conversion of an element to
      a string where a key is expected.  Arguments are taken at their
      declared types: a key is a string, an index a number, and the setup
      gives a string and a boolean, or leaves them out.
    - Numbers are integers, of a size that JavaScript prints in plain
      decimal; a character of a string stands for one UTF-16 code unit; two
      texts that denote the same JSON document are not told apart. *)

From Stdlib Require Import ZArith String Ascii List DecimalString.
From stdpp Require Import base option list strings gmap fin_maps.

Set Warnings "-register-all".
Local Open Scope string_scope.
Local Open Scope Z_scope.

(** ** Values, documents and texts *)

(** A JSON document, which is also what [JSON.parse] returns. *)
Inductive json : Type :=
| JNull
| JBool (b : bool)
| JNum (n : Z)
| JStr (s : string)
| JArr (items : list json)
| JObj (fields : list (string * json)).

(** [value: unknown].  A date is given by its ISO text, the one [toJSON]
    returns. *)
Inductive value : Type :=
| Undefined
| Null
| Boolean (b : bool)
| Num (n : Z)
| NaN
| Infinity (negative : bool)
| BigInt (n : Z)
| Str (s : string)
| Date (iso : string)
| Func
| Arr (items : list value)
| Obj (fields : list (string * value)).

(** What the medium stores under a physical key. *)
Inductive text : Type :=
| Json (d : json)
| NotJson (s : string).

Inductive exn : Type :=
| Error (msg : string)
| SyntaxError
| TypeError
| DOMException (name : string).

Inductive completion (A : Type) : Type :=
| Normal (a : A)
| Throw (e : exn).
Arguments Normal {A} a.
Arguments Throw {A} e.

(** ** The medium: [window.localStorage] *)

Class Storage (M : Type) : Type := {
  getItem : string → M → completion (option text) * M;
  setItem : string → text → M → completion unit * M;
  removeItem : string → M → completion unit * M
}.

(** The medium that never throws. *)
Abbreviation localStorage := (gmap string text).

#[export] Instance localStorage_Storage : Storage localStorage := {|
  getItem k m := (Normal (m !! k), m);
  setItem k t m := (Normal tt, <[k := t]> m);
  removeItem k m := (Normal tt, delete k m)
|}.

(** A medium whose every access throws, as when storage is disabled. *)
Inductive disabledStorage : Type := Disabled.

#[export] Instance disabledStorage_Storage : Storage disabledStorage := {|
  getItem _ m := (Throw (DOMException "SecurityError"), m);
  setItem _ _ m := (Throw (DOMException "SecurityError"), m);
  removeItem _ m := (Throw (DOMException "SecurityError"), m)
|}.

(** A medium that can be read but is full: every write throws. *)
Record fullStorage : Type := Full { full_items : gmap string text }.

#[export] Instance fullStorage_Storage : Storage fullStorage := {|
  getItem k m := (Normal (full_items m !! k), m);
  setItem _ _ m := (Throw (DOMException "QuotaExceededError"), m);
  removeItem k m := (Normal tt, Full (delete k (full_items m)))
|}.

(** ** JSON.stringify, JSON.parse and structuredClone *)

(** What [JSON.stringify] prints for a value inside a document; [None] is
    [undefined], for which nothing is printed.  [NaN] and the infinities
    are printed as [null], a date as its ISO string; in an array
    [undefined] and functions are printed as [null], in an object their
    members are left out.  (On a BigInt [JSON.stringify] throws, see
    [encodable]; the clause here is never used.) *)
Fixpoint to_json (v : value) : option json :=
  match v with
  | Undefined | Func | BigInt _ => None
  | Null | NaN | Infinity _ => Some JNull
  | Boolean b => Some (JBool b)
  | Num n => Some (JNum n)
  | Str s | Date s => Some (JStr s)
  | Arr items => Some (JArr ((λ x, default JNull (to_json x)) <$> items))
  | Obj fields => Some (JObj (omap (λ p, pair p.1 <$> to_json p.2) fields))
  end.

(** [JSON.stringify] throws a [TypeError] on a BigInt, wherever it is in
    the value. *)
Fixpoint encodable (v : value) : bool :=
  match v with
  | BigInt _ => false
  | Arr items => forallb encodable items
  | Obj fields => forallb (λ p, encodable p.2) fields
  | _ => true
  end.

(** [structuredClone] throws a [DataCloneError] on a function, wherever it
    is in the value. *)
Fixpoint clonable (v : value) : bool :=
  match v with
  | Func => false
  | Arr items => forallb clonable items
  | Obj fields => forallb (λ p, clonable p.2) fields
  | _ => true
  end.

(** The value [JSON.parse] returns for the text of a document. *)
Fixpoint of_json (d : json) : value :=
  match d with
  | JNull => Null
  | JBool b => Boolean b
  | JNum n => Num n
  | JStr s => Str s
  | JArr items => Arr (of_json <$> items)
  | JObj fields => Obj ((λ p, (p.1, of_json p.2)) <$> fields)
  end.

(** [JSON.stringify(keysArray)], for a [keysArray] that was parsed from a
    document or built from one by the array operations below. *)
Definition JSON_stringify_keys (keysArray : json) : text := Json keysArray.

(** [JSON.stringify(wrappedValue)] for [wrappedValue = { value }]: a property
    whose value is [undefined] is left out. *)
Definition JSON_stringify_wrapped (v : value) : completion text :=
  if encodable v then
    Normal (Json (JObj match to_json v with
                       | Some j => [("value", j)]
                       | None => []
                       end))
  else Throw TypeError.

Definition JSON_parse (t : text) : completion json :=
  match t with
  | Json d => Normal d
  | NotJson _ => Throw SyntaxError
  end.

(** The own property [name] of a parsed object; the last binding wins, as
    in [JSON.parse]. *)
Fixpoint property (name : string) (fields : list (string * json)) : option json :=
  match fields with
  | [] => None
  | (k, j) :: rest =>
      match property name rest with
      | Some j' => Some j'
      | None => if String.eqb k name then Some j else None
      end
  end.

(** [const { value } = d]: destructuring [null] throws, an object gives its
    property or [undefined], and the other documents have no such
    property. *)
Definition destructure_value (d : json) : completion value :=
  match d with
  | JNull => Throw TypeError
  | JObj fields =>
      Normal match property "value" fields with
             | Some j => of_json j
             | None => Undefined
             end
  | _ => Normal Undefined
  end.

Definition structuredClone (v : value) : completion value :=
  if clonable v then Normal v else Throw (DOMException "DataCloneError").

(** ** The key index, as JavaScript sees it *)

(** The document of an array of strings. *)
Definition strings (keys : list string) : json := JArr (JStr <$> keys).

(** [element === key], for a string [key]. *)
Definition strict_equals (element : json) (key : string) : bool :=
  match element with
  | JStr s => bool_decide (s = key)
  | _ => false
  end.

(** [s.includes(key)] on a string. *)
Fixpoint String_includes (s key : string) : bool :=
  String.prefix key s ||
  match s with
  | EmptyString => false
  | String _ s' => String_includes s' key
  end.

(** [keysArray.includes(key)]: arrays and strings have the method; on
    anything else the call throws. *)
Definition keysArray_includes (keysArray : json) (key : string) : completion bool :=
  match keysArray with
  | JArr items => Normal (existsb (λ element, strict_equals element key) items)
  | JStr s => Normal (String_includes s key)
  | _ => Throw TypeError
  end.

(** [keysArray.push(key)]; the result is the array after the push. *)
Definition keysArray_push (keysArray : json) (key : string) : completion json :=
  match keysArray with
  | JArr items => Normal (JArr (items ++ [JStr key]))
  | _ => Throw TypeError
  end.

(** [keysArray.filter(f)]. *)
Definition keysArray_filter (keysArray : json) (f : json → bool) : completion json :=
  match keysArray with
  | JArr items => Normal (JArr (List.filter f items))
  | _ => Throw TypeError
  end.

Definition decimal (n : Z) : string := NilZero.string_of_int (Z.to_int n).

(** The string that the conversion to a string gives for a parsed
    document: an array is the join of its elements, [null] elements being
    empty, and an object is ["[object Object]"]. *)
Fixpoint print (d : json) : string :=
  match d with
  | JNull => "null"
  | JBool b => if b then "true" else "false"
  | JNum n => decimal n
  | JStr s => s
  | JArr items =>
      String.concat ","
        ((λ x, match x with JNull => EmptyString | _ => print x end) <$> items)
  | JObj _ => "[object Object]"
  end.

(** The conversion throws on an object that has a property named
    ["toString"] of its own: what [JSON.parse] put there is no function, and
    [valueOf] gives no primitive.  So it does on an array that has such an
    element. *)
Fixpoint printable (d : json) : bool :=
  match d with
  | JArr items => forallb printable items
  | JObj fields =>
      match property "toString" fields with
      | Some _ => false
      | None => true
      end
  | _ => true
  end.

(** The string a template literal makes of a parsed document. *)
Definition ToString (d : json) : completion string :=
  if printable d then Normal (print d) else Throw TypeError.

(** [keysArray.length]. *)
Definition keysArray_length (keysArray : json) : completion value :=
  match keysArray with
  | JNull => Throw TypeError
  | JArr items => Normal (Num (Z.of_nat (length items)))
  | JStr s => Normal (Num (Z.of_nat (String.length s)))
  | JObj fields =>
      Normal match property "length" fields with
             | Some j => of_json j
             | None => Undefined
             end
  | _ => Normal Undefined
  end.

(** [keysArray[index]]: [undefined] outside an array or a string. *)
Definition keysArray_at (keysArray : json) (index : Z) : completion value :=
  match keysArray with
  | JNull => Throw TypeError
  | JArr items =>
      Normal match (if 0 <=? index then items !! Z.to_nat index else None) with
             | Some j => of_json j
             | None => Undefined
             end
  | JStr s =>
      Normal match (if 0 <=? index then String.get (Z.to_nat index) s else None) with
             | Some c => Str (String c EmptyString)
             | None => Undefined
             end
  | JObj fields =>
      Normal match property (decimal index) fields with
             | Some j => of_json j
             | None => Undefined
             end
  | _ => Normal Undefined
  end.

(** ** The instance *)

Definition interfaceName : string := "LocalStorageInterface".

Definition defaultUseCache : bool := false.

(** Modelled from the spec: [defaultStorageName] is imported from the
    [storage-facade] package, which is not part of the sources; the usage
    notes give the default name as ['storage']. *)
Definition defaultStorageName : string := "storage".

Record Setup : Type := {
  name : option string;
  setup_useCache : option bool
}.

Record LocalStorageInterface : Type := {
  storageName : string;
  keysArrayName : string;
  useCache : bool;
  keysArrayCache : json;
  keyValueCache : gmap string value
}.

(** [new LocalStorageInterface()]. *)
Definition new_LocalStorageInterface : LocalStorageInterface := {|
  storageName := "";
  keysArrayName := "";
  useCache := defaultUseCache;
  keysArrayCache := JArr [];
  keyValueCache := ∅
|}.

Definition set_names (sn kn : string) (uc : bool) (i : LocalStorageInterface) :=
  {| storageName := sn; keysArrayName := kn; useCache := uc;
     keysArrayCache := keysArrayCache i; keyValueCache := keyValueCache i |}.

Definition set_keysArrayCache (keys : json) (i : LocalStorageInterface) :=
  {| storageName := storageName i; keysArrayName := keysArrayName i;
     useCache := useCache i; keysArrayCache := keys;
     keyValueCache := keyValueCache i |}.

Definition set_keyValueCache (c : gmap string value) (i : LocalStorageInterface) :=
  {| storageName := storageName i; keysArrayName := keysArrayName i;
     useCache := useCache i; keysArrayCache := keysArrayCache i;
     keyValueCache := c |}.

(** [`__${storageName}-keys-array`] and [`${storageName}-${key}`]. *)
Definition index_key (sn : string) : string := "__" +:+ sn +:+ "-keys-array".
Definition physical_key (sn key : string) : string := sn +:+ "-" +:+ key.

(** ** Computations *)

Section adapter.
Context {M : Type} `{!Storage M}.

Definition state : Type := LocalStorageInterface * M.

Definition js (A : Type) : Type := state → completion A * state.

Definition ret {A} (a : A) : js A := λ st, (Normal a, st).
Definition throw {A} (e : exn) : js A := λ st, (Throw e, st).
Definition bind {A B} (c : js A) (k : A → js B) : js B :=
  λ st, match c st with
        | (Normal a, st') => k a st'
        | (Throw e, st') => (Throw e, st')
        end.
(** [try { c } catch (e) { h(e) }]. *)
Definition try_catch {A} (c : js A) (h : exn → js A) : js A :=
  λ st, match c st with
        | (Normal a, st') => (Normal a, st')
        | (Throw e, st') => h e st'
        end.

Notation "x ← c ; k" := (bind c (λ x, k))
  (at level 20, c at level 100, k at level 200, only parsing).
Notation "c ;; k" := (bind c (λ _, k))
  (at level 100, k at level 200, right associativity, only parsing).

(** [this.f] and [this.f = x]. *)
Definition this {A} (f : LocalStorageInterface → A) : js A :=
  λ st, (Normal (f st.1), st).
Definition assign (upd : LocalStorageInterface → LocalStorageInterface) : js unit :=
  λ st, (Normal tt, (upd st.1, st.2)).
Definition lift {A} (r : completion A) : js A := λ st, (r, st).
Definition when_ (b : bool) (c : js unit) : js unit := if b then c else ret tt.

Definition window_localStorage_getItem (k : string) : js (option text) :=
  λ st, let '(r, m) := getItem k st.2 in (r, (st.1, m)).
Definition window_localStorage_setItem (k : string) (t : text) : js unit :=
  λ st, let '(r, m) := setItem k t st.2 in (r, (st.1, m)).
Definition window_localStorage_removeItem (k : string) : js unit :=
  λ st, let '(r, m) := removeItem k st.2 in (r, (st.1, m)).

(** [items.forEach(f)] on the elements of an array. *)
Fixpoint forEach_items (items : list json) (f : json → js unit) : js unit :=
  match items with
  | [] => ret tt
  | item :: rest => f item;; forEach_items rest f
  end.

(** [keysArray.forEach(f)]: only arrays have the method. *)
Definition keysArray_forEach (keysArray : json) (f : json → js unit) : js unit :=
  match keysArray with
  | JArr items => forEach_items items f
  | _ => throw TypeError
  end.

(** ** The methods of [LocalStorageInterface] *)

Definition getKeysArray : js json :=
  kn ← this keysArrayName;
  keysStr ← window_localStorage_getItem kn;
  match keysStr with
  | None =>
      throw (Error ("storage-facade: " +:+ interfaceName +:+ ": "
                    +:+ "'" +:+ kn +:+ "' not found."))
  | Some keysStr =>
      (* [as string[]] checks nothing *)
      keys ← lift (JSON_parse keysStr);
      uc ← this useCache;
      when_ uc (assign (set_keysArrayCache keys));;
      ret keys
  end.

Definition initSync (setup : Setup) : js (option exn) :=
  let sn := default defaultStorageName (name setup) in
  assign (set_names sn (index_key sn)
                    (default defaultUseCache (setup_useCache setup)));;
  try_catch
    (kn ← this keysArrayName;
     keysStr ← window_localStorage_getItem kn;
     match keysStr with
     | None =>
         (* Create keysArray in storage *)
         window_localStorage_setItem kn (JSON_stringify_keys (JArr []));;
         ret None
     | Some keysStr =>
         uc ← this useCache;
         if uc then
           keysArray ← lift (JSON_parse keysStr);
           (* Load keysArray to cache *)
           assign (set_keysArrayCache keysArray);;
           ret None
         else ret None
     end)
    (λ e, ret (Some e)).

Definition keyName (key : string) : js string :=
  sn ← this storageName; ret (physical_key sn key).

(** [keyName] as [forEach] calls it in [clearSync], on an element of the
    parsed index, which need not be a string: the template literal converts
    it. *)
Definition keyName_of (key : json) : js string :=
  sn ← this storageName;
  key ← lift (ToString key);
  ret (physical_key sn key).

Definition getItemSync (key : string) : js value :=
  uc ← this useCache;
  cache ← this keyValueCache;
  match (if uc then cache !! key else None) with
  | Some v => lift (structuredClone v)
  | None =>
      pk ← keyName key;
      valueStr ← window_localStorage_getItem pk;
      match valueStr with
      | None => ret Undefined
      | Some valueStr =>
          d ← lift (JSON_parse valueStr);
          v ← lift (destructure_value d);
          (* Update keyValue cache *)
          when_ uc (clone ← lift (structuredClone v);
                    assign (λ i, set_keyValueCache
                                   (<[key := clone]> (keyValueCache i)) i));;
          ret v
      end
  end.

(** [const keysArray = this.useCache ? this.keysArrayCache : this.getKeysArray()]. *)
Definition current_keysArray : js json :=
  uc ← this useCache;
  if uc then this keysArrayCache else getKeysArray.

Definition setItemSync (key : string) (v : value) : js unit :=
  kn ← this keysArrayName;
  if bool_decide (key = kn) then
    throw (Error ("storage-facade: " +:+ interfaceName +:+ ":"
                  +:+ "key '" +:+ key +:+ "' cannot be used."))
  else
    uc ← this useCache;
    keysArray ← current_keysArray;
    included ← lift (keysArray_includes keysArray key);
    when_ (negb included)
      (keysArray ← lift (keysArray_push keysArray key);
       (* [push] mutates the array itself: with the cache enabled that
          array is [this.keysArrayCache], changed before the write. *)
       when_ uc (assign (set_keysArrayCache keysArray));;
       (* Update keys array in storage *)
       window_localStorage_setItem kn (JSON_stringify_keys keysArray);;
       (* Update keysArray cache *)
       when_ uc (assign (set_keysArrayCache keysArray)));;
    (* Update storage *)
    pk ← keyName key;
    valueStr ← lift (JSON_stringify_wrapped v);
    window_localStorage_setItem pk valueStr;;
    (* Update keyValue cache *)
    when_ uc (clone ← lift (structuredClone v);
              assign (λ i, set_keyValueCache
                             (<[key := clone]> (keyValueCache i)) i)).

Definition removeItemSync (key : string) : js unit :=
  uc ← this useCache;
  keysArray ← current_keysArray;
  updatedKeysArray ←
    lift (keysArray_filter keysArray
            (λ savedKey, negb (strict_equals savedKey key)));
  kn ← this keysArrayName;
  (* Update keys array in storage *)
  window_localStorage_setItem kn (JSON_stringify_keys updatedKeysArray);;
  (* Delete key from storage *)
  pk ← keyName key;
  window_localStorage_removeItem pk;;
  (* Update cache *)
  when_ uc (assign (λ i, set_keysArrayCache updatedKeysArray
                           (set_keyValueCache (delete key (keyValueCache i)) i))).

Definition clearSync : js unit :=
  uc ← this useCache;
  keysArray ← current_keysArray;
  (* Update storage *)
  keysArray_forEach keysArray
    (λ key, pk ← keyName_of key; window_localStorage_removeItem pk);;
  (* Update keys array *)
  kn ← this keysArrayName;
  window_localStorage_setItem kn (JSON_stringify_keys (JArr []));;
  (* Update cache *)
  when_ uc (assign (λ i, set_keysArrayCache (JArr []) (set_keyValueCache ∅ i))).

(** [keysArray.length]: a number when [keysArray] is an array. *)
Definition sizeSync : js value :=
  keysArray ← current_keysArray;
  lift (keysArray_length keysArray).

(** [keysArray[index]]: [undefined] outside the array. *)
Definition keySync (index : Z) : js value :=
  keysArray ← current_keysArray;
  lift (keysArray_at keysArray index).

(** ** Calls, as the façade issues them after [initSync] *)

Inductive call : Type :=
| Get (key : string)
| Set_ (key : string) (v : value)
| Remove (key : string)
| Clear
| Size
| KeyAt (index : Z).

Inductive answer : Type :=
| AValue (v : value)
| AVoid
| ANumber (n : value)
| AKey (k : value).

Definition perform (c : call) : js answer :=
  match c with
  | Get key => v ← getItemSync key; ret (AValue v)
  | Set_ key v => setItemSync key v;; ret AVoid
  | Remove key => removeItemSync key;; ret AVoid
  | Clear => clearSync;; ret AVoid
  | Size => n ← sizeSync; ret (ANumber n)
  | KeyAt index => k ← keySync index; ret (AKey k)
  end.

(** The state after a sequence of calls, whatever each one returned or
    threw. *)
Definition after (calls : list call) (st : state) : state :=
  foldl (λ st c, (perform c st).2) st calls.

End adapter.

(** ** What the medium holds for a namespace, read without the adapter *)

Definition as_string (d : json) : option string :=
  match d with
  | JStr s => Some s
  | _ => None
  end.

(** The keys of a document that is an array of strings. *)
Definition string_array (d : json) : option (list string) :=
  match d with
  | JArr items => mapM as_string items
  | _ => None
  end.

(** The persisted key index, decoded; [None] when the record is absent or
    is not the text of an array of strings. *)
Definition persisted_keys (i : LocalStorageInterface) (m : localStorage)
  : option (list string) :=
  match m !! keysArrayName i with
  | Some (Json d) => string_array d
  | _ => None
  end.

(** The persisted Entry of a logical key, decoded; [None] when the record is
    absent or cannot be decoded. *)
Definition persisted_value (i : LocalStorageInterface) (m : localStorage)
  (key : string) : option value :=
  match m !! physical_key (storageName i) key with
  | Some (Json d) =>
      match destructure_value d with
      | Normal v => Some v
      | Throw _ => None
      end
  | _ => None
  end.

(** The index as the methods see it: the mirror when caching is enabled,
    the medium otherwise; [None] when that is not an array of strings. *)
Definition index_of (st : LocalStorageInterface * localStorage)
  : option (list string) :=
  if useCache st.1 then string_array (keysArrayCache st.1)
  else persisted_keys st.1 st.2.

(** The cached index is the persisted index. *)
Definition index_mirrored (st : LocalStorageInterface * localStorage) : Prop :=
  st.2 !! keysArrayName st.1 = Some (Json (keysArrayCache st.1)).

(** The in-memory mirror agrees with the medium: the cached index is the
    persisted index, and every cached value is the decoded persisted
    Entry of its key. *)
Definition mirror_agrees (st : LocalStorageInterface * localStorage) : Prop :=
  index_mirrored st ∧
  ∀ key v, keyValueCache st.1 !! key = Some v →
           persisted_value st.1 st.2 key = Some v.

(** Every key of the value cache has an Entry in the medium. *)
Definition cached_present (st : LocalStorageInterface * localStorage) : Prop :=
  ∀ key, is_Some (keyValueCache st.1 !! key) →
         is_Some (st.2 !! physical_key (storageName st.1) key).

(** An initialized namespace: the names are the computed ones, the index
    record exists and is an array of strings, and with the cache enabled
    the cached index is the persisted one and only keys that have an Entry
    are cached. *)
Definition initialized (st : LocalStorageInterface * localStorage) : Prop :=
  keysArrayName st.1 = index_key (storageName st.1) ∧
  is_Some (persisted_keys st.1 st.2) ∧
  (useCache st.1 = true → index_mirrored st ∧ cached_present st).

(** A logical key is listed in the index, or has no Entry in the medium. *)
Definition listed_or_absent (st : LocalStorageInterface * localStorage)
  (key : string) : Prop :=
  match index_of st with
  | Some keys => key ∈ keys
  | None => False
  end ∨ st.2 !! physical_key (storageName st.1) key = None.

(** A medium on which a namespace can be initialized: its index record is
    absent, or is an array of strings. *)
Definition index_absent_or_decodable (sn : string) (m : localStorage) : Prop :=
  match m !! index_key sn with
  | None => True
  | Some (Json d) => is_Some (string_array d)
  | Some (NotJson _) => False
  end.

(** ** Reference definitions, following the words of the specification *)

Definition is_set_or_get (c : call) : bool :=
  match c with
  | Get _ | Set_ _ _ => true
  | _ => false
  end.

(** The value passed to the most recent [set] of [key] in a sequence of
    calls, if there is one. *)
Fixpoint last_set (key : string) (calls : list call) : option value :=
  match calls with
  | [] => None
  | c :: rest =>
      match last_set key rest with
      | Some v => Some v
      | None =>
          match c with
          | Set_ key' v => if bool_decide (key' = key) then Some v else None
          | _ => None
          end
      end
  end.

(** Keys in the order of their first insertion: a [set] of an absent key
    appends it, a [set] of a present key (or of the reserved key, which is
    rejected) changes nothing, [remove] takes the key out and [clear]
    empties the order. *)
Definition insert_key (reserved key : string) (order : list string) : list string :=
  if bool_decide (key = reserved) then order
  else if bool_decide (key ∈ order) then order
  else (order ++ [key])%list.

Definition order_step (reserved : string) (order : list string) (c : call)
  : list string :=
  match c with
  | Set_ key _ => insert_key reserved key order
  | Remove key => filter (λ k, k ≠ key) order
  | Clear => []
  | _ => order
  end.

Definition insertion_order (reserved : string) (calls : list call)
  (order : list string) : list string :=
  foldl (order_step reserved) order calls.

(** Two namespace names whose physical keys cannot collide: neither
    ["A-"] is a prefix of ["B-"] or of the index key of [B], nor the other
    way round. *)
Definition separated (a b : string) : bool :=
  negb (String.prefix (a +:+ "-") (b +:+ "-")) &&
  negb (String.prefix (b +:+ "-") (a +:+ "-")) &&
  negb (String.prefix (a +:+ "-") (index_key b)) &&
  negb (String.prefix (b +:+ "-") (index_key a)).

(** A plain name: no ['-'] in it, and no ['_'] at its start. *)
Fixpoint no_dash (s : string) : bool :=
  match s with
  | EmptyString => true
  | String c s' => negb (Ascii.eqb c "-") && no_dash s'
  end.

Definition plain_name (s : string) : bool :=
  no_dash s && negb (String.prefix "_" s).

(** The physical keys of a namespace: its index key and the Entry keys of
    all logical keys. *)
Definition owns (sn : string) (p : string) : Prop :=
  p = index_key sn ∨ ∃ key, p = physical_key sn key.

(** ** Example namespaces *)

Definition setup_one : Setup :=
  {| name := Some "storageOne"; setup_useCache := Some true |}.

Definition setup_default : Setup :=
  {| name := None; setup_useCache := None |}.

(** A cached and an uncached namespace, freshly initialized on an empty
    medium. *)
Definition fresh_one : LocalStorageInterface * localStorage :=
  (initSync setup_one (new_LocalStorageInterface, ∅)).2.

Definition fresh_default : LocalStorageInterface * localStorage :=
  (initSync setup_default (new_LocalStorageInterface, ∅)).2.

(** Two namespaces whose names differ and whose physical keys collide:
    ["a-" ++ "b-x"] is also ["a-b-" ++ "x"], and ["__b-" ++ "keys-array"] is
    the index key of ["b"]. *)
Definition setup_a : Setup := {| name := Some "a"; setup_useCache := None |}.
Definition setup_a_b : Setup := {| name := Some "a-b"; setup_useCache := None |}.
Definition setup_b : Setup := {| name := Some "b"; setup_useCache := None |}.
Definition setup__b : Setup := {| name := Some "__b"; setup_useCache := None |}.

(** Namespace ["a"] sets ["b-x"]; then namespace ["a-b"] is initialized on
    the same medium and sets ["x"]. *)
Definition collide_a : LocalStorageInterface * localStorage :=
  (setItemSync "b-x" (Num 2)
     (initSync setup_a (new_LocalStorageInterface, ∅)).2).2.

Definition collide_a_b : LocalStorageInterface * localStorage :=
  (setItemSync "x" (Num 1)
     (initSync setup_a_b (new_LocalStorageInterface, collide_a.2)).2).2.

(** Namespace ["b"] sets ["x"]; then namespace ["__b"] is initialized on the
    same medium. *)
Definition collide_b : LocalStorageInterface * localStorage :=
  (setItemSync "x" (Num 1)
     (initSync setup_b (new_LocalStorageInterface, ∅)).2).2.

Definition collide__b : LocalStorageInterface * localStorage :=
  (initSync setup__b (new_LocalStorageInterface, collide_b.2)).2.

Definition setup_two : Setup :=
  {| name := Some "storageTwo"; setup_useCache := Some true |}.

(** ** Further notions *)

(** What reading an Entry key gives: [undefined] when the medium has nothing
    there, the decoded value otherwise, or the exception of the decoding. *)
Definition read_entry (t : option text) : completion value :=
  match t with
  | None => Normal Undefined
  | Some (Json d) => destructure_value d
  | Some (NotJson _) => Throw SyntaxError
  end.

(** A value that survives the way through the medium: [set] encodes it
    without throwing and decoding the Entry gives it back. *)
Definition JSON_preserves (v : value) : Prop :=
  ∃ t, JSON_stringify_wrapped v = Normal t ∧ read_entry (Some t) = Normal v.

(** The value cache follows the medium: the Entry of every cached value is
    the encoding of that value, as [set] left it, or decodes to that value,
    as [get] found it. *)
Definition values_track (st : LocalStorageInterface * localStorage) : Prop :=
  ∀ key v, keyValueCache st.1 !! key = Some v →
           ∃ t, st.2 !! physical_key (storageName st.1) key = Some t ∧
                (JSON_stringify_wrapped v = Normal t ∨
                 read_entry (Some t) = Normal v).

(** What the mirror of a caching instance does keep: the cached index is
    the persisted index, and the value cache follows the medium. *)
Definition mirror_tracks (st : LocalStorageInterface * localStorage) : Prop :=
  keysArrayName st.1 = index_key (storageName st.1) ∧
  useCache st.1 = true ∧
  index_mirrored st ∧
  values_track st.

(** The index lists exactly the logical keys that have an Entry in the
    medium. *)
Definition index_complete (st : LocalStorageInterface * localStorage) : Prop :=
  ∃ keys, index_of st = Some keys ∧
          ∀ key, key ∈ keys ↔
                 is_Some (st.2 !! physical_key (storageName st.1) key).

(** What a method takes as the index on the medium that never throws: the
    cached document, or the parsed index record. *)
Definition read_index (i : LocalStorageInterface) (m : localStorage)
  : completion json :=
  if useCache i then Normal (keysArrayCache i)
  else match m !! keysArrayName i with
       | None =>
           Throw (Error ("storage-facade: " +:+ interfaceName +:+ ": "
                         +:+ "'" +:+ keysArrayName i +:+ "' not found."))
       | Some keysStr => JSON_parse keysStr
       end.

(** The second half of [setItemSync] on the medium that never throws: the
    Entry is written once the value is encoded, and the value is cached
    once it is cloned. *)
Definition store_entry (key : string) (v : value)
  (st : LocalStorageInterface * localStorage)
  : completion unit * (LocalStorageInterface * localStorage) :=
  match JSON_stringify_wrapped v with
  | Throw e => (Throw e, st)
  | Normal valueStr =>
      let m := <[physical_key (storageName st.1) key := valueStr]> st.2 in
      if useCache st.1 then
        match structuredClone v with
        | Throw e => (Throw e, (st.1, m))
        | Normal clone =>
            (Normal tt,
             (set_keyValueCache (<[key := clone]> (keyValueCache st.1)) st.1, m))
        end
      else (Normal tt, (st.1, m))
  end.

(** The loop of [clearSync] on the medium that never throws: the Entries
    named by the elements are removed one after the other, until an element
    cannot be converted to a string. *)
Fixpoint remove_entries (sn : string) (items : list json) (m : localStorage)
  : completion unit * localStorage :=
  match items with
  | [] => (Normal tt, m)
  | item :: rest =>
      match ToString item with
      | Throw e => (Throw e, m)
      | Normal key => remove_entries sn rest (delete (physical_key sn key) m)
      end
  end.

(** A cached instance that has written two keys, for use on other media. *)
Definition cached_two : LocalStorageInterface :=
  (after [Set_ "value" (Num 4); Set_ "other" Null] fresh_one).1.

(** * Properties *)
(** ** Physical keys *)

Lemma append_nil (t : string) : "" +:+ t = t.
Proof. reflexivity. Qed.

Lemma append_cons (a : ascii) (s t : string) :
  String a s +:+ t = String a (s +:+ t).
Proof. reflexivity. Qed.

Lemma append_nil_end (s : string) : s +:+ "" = s.
Proof. induction s as [|a s IH]; [done|]. by rewrite append_cons, IH. Qed.

Lemma append_assoc (s t u : string) : (s +:+ t) +:+ u = s +:+ (t +:+ u).
Proof.
  induction s as [|a s IH]; [done|]. by rewrite !append_cons, IH.
Qed.

Lemma physical_key_inj sn key1 key2 :
  physical_key sn key1 = physical_key sn key2 → key1 = key2.
Proof.
  unfold physical_key. intros H.
  apply (inj (String.append sn)) in H.
  by apply (inj (String.append "-")) in H.
Qed.

(** A string that starts with two characters other than ['-'] and then
    repeats [s] cannot be [s] followed by ['-']. *)
Lemma shifted_prefix_no_dash s : ∀ (a b : ascii) (k r : string),
  a ≠ "-"%char → b ≠ "-"%char →
  s +:+ String "-" k ≠ String a (String b (s +:+ r)).
Proof.
  induction s as [|c s IH]; intros a b k r Ha Hb.
  - rewrite append_nil. intros [= Heq _]. by apply Ha.
  - rewrite !append_cons. intros [= -> Heq]. by apply (IH b a k r).
Qed.

(** Inside one namespace an Entry key is never the index key. *)
Lemma physical_key_ne_index_key sn key :
  physical_key sn key ≠ index_key sn.
Proof.
  apply (shifted_prefix_no_dash sn "_" "_" key "-keys-array"); discriminate.
Qed.

(** Two prefixes of one string are comparable. *)
Lemma append_eq_prefix s1 : ∀ s2 t1 t2,
  s1 +:+ t1 = s2 +:+ t2 →
  String.prefix s1 s2 = true ∨ String.prefix s2 s1 = true.
Proof.
  induction s1 as [|a s1 IH]; intros s2 t1 t2 H.
  - left. by destruct s2.
  - destruct s2 as [|b s2]; [by right|].
    rewrite !append_cons in H. injection H as -> H.
    destruct (IH _ _ _ H) as [Hp|Hp]; [left|right];
      simpl; by destruct (ascii_dec b b).
Qed.

Lemma append_prefix s t : String.prefix s (s +:+ t) = true.
Proof.
  induction s as [|a s IH]; [by destruct t|].
  rewrite append_cons. simpl. by destruct (ascii_dec a a).
Qed.

(** The index keys of two namespaces are the same only for one name. *)
Lemma index_key_inj a b : index_key a = index_key b → a = b.
Proof.
  unfold index_key. intros H.
  apply (inj (String.append "__")) in H.
  revert b H. generalize "-keys-array". intros t.
  assert (Hlen : ∀ x : string,
    String.length (x +:+ t) = (String.length x + String.length t)%nat).
  { induction x as [|c x IHx]; [done|]. rewrite append_cons. simpl. by rewrite IHx. }
  induction a as [|c a IH]; intros [|d b] H.
  - done.
  - exfalso. apply (f_equal String.length) in H.
    rewrite append_nil, Hlen in H. simpl in H. lia.
  - exfalso. apply (f_equal String.length) in H.
    rewrite append_nil, Hlen in H. simpl in H. lia.
  - rewrite !append_cons in H. injection H as -> H. f_equal. by apply IH.
Qed.

(** For separated names, no physical key of one namespace is a physical key
    of the other. *)
Lemma separated_owns a b p : separated a b = true → owns a p → ¬ owns b p.
Proof.
  unfold separated. rewrite !andb_true_iff, !negb_true_iff.
  intros [[[Hab Hba] Haib] Hbia] Ha Hb.
  destruct Ha as [->|[ka ->]], Hb as [Hb|[kb Hb]].
  - apply index_key_inj in Hb as ->.
    pose proof (append_prefix (b +:+ "-") "") as Hp.
    rewrite append_nil_end in Hp. congruence.
  - unfold physical_key in Hb. rewrite <- append_assoc in Hb.
    assert (String.prefix (b +:+ "-") (index_key a) = true); [|congruence].
    rewrite Hb. apply append_prefix.
  - unfold physical_key in Hb. rewrite <- append_assoc in Hb.
    assert (String.prefix (a +:+ "-") (index_key b) = true); [|congruence].
    rewrite <- Hb. apply append_prefix.
  - unfold physical_key in Hb. rewrite <- !append_assoc in Hb.
    destruct (append_eq_prefix _ _ _ _ Hb); congruence.
Qed.


(** ** The codec *)

Lemma json_nested_ind (P : json → Prop) :
  P JNull → (∀ b, P (JBool b)) → (∀ n, P (JNum n)) → (∀ s, P (JStr s)) →
  (∀ items, Forall P items → P (JArr items)) →
  (∀ fields, Forall (λ p, P p.2) fields → P (JObj fields)) →
  ∀ d, P d.
Proof.
  intros Hnull Hbool Hnum Hstr Harr Hobj. fix IH 1.
  intros [| b | n | s | items | fields].
  - exact Hnull.
  - apply Hbool.
  - apply Hnum.
  - apply Hstr.
  - apply Harr. induction items as [|d items IHitems]; constructor.
    + apply IH.
    + exact IHitems.
  - apply Hobj. induction fields as [|[k d] fields IHfields]; constructor.
    + apply IH.
    + exact IHfields.
Qed.

(** What [JSON.parse] returns is printed back by [JSON.stringify] as the
    same document. *)
Lemma to_json_of_json d : to_json (of_json d) = Some d.
Proof.
  induction d as [| | | |items IH|fields IH] using json_nested_ind; try done.
  - cbn [of_json to_json]. do 2 f_equal.
    induction IH as [|d items Hd _ IHitems]; [done|].
    rewrite !fmap_cons, Hd. cbn [default]. by rewrite IHitems.
  - cbn [of_json to_json]. do 2 f_equal.
    induction IH as [|[k d] fields Hd _ IHfields]; [done|].
    rewrite fmap_cons. cbn [omap list_omap fst snd]. cbn [snd] in Hd.
    rewrite Hd. cbn [fmap option_fmap option_map]. f_equal. exact IHfields.
Qed.

Lemma encodable_of_json d : encodable (of_json d) = true.
Proof.
  induction d as [| | | |items IH|fields IH] using json_nested_ind; try done.
  - cbn [of_json encodable].
    induction IH as [|d items Hd _ IHitems]; [done|].
    rewrite fmap_cons. cbn [forallb]. by rewrite Hd, IHitems.
  - cbn [of_json encodable].
    induction IH as [|[k d] fields Hd _ IHfields]; [done|].
    rewrite fmap_cons. cbn [forallb fst snd]. cbn [snd] in Hd.
    by rewrite Hd, IHfields.
Qed.

Lemma clonable_of_json d : clonable (of_json d) = true.
Proof.
  induction d as [| | | |items IH|fields IH] using json_nested_ind; try done.
  - cbn [of_json clonable].
    induction IH as [|d items Hd _ IHitems]; [done|].
    rewrite fmap_cons. cbn [forallb]. by rewrite Hd, IHitems.
  - cbn [of_json clonable].
    induction IH as [|[k d] fields Hd _ IHfields]; [done|].
    rewrite fmap_cons. cbn [forallb fst snd]. cbn [snd] in Hd.
    by rewrite Hd, IHfields.
Qed.

(** A decoded Entry can always be cloned. *)
Lemma destructure_value_clonable d v :
  destructure_value d = Normal v → clonable v = true.
Proof.
  destruct d as [| | | | |fields]; simpl; try by intros [= <-].
  destruct (property "value" fields) as [j|]; intros [= <-]; [|done].
  apply clonable_of_json.
Qed.

Lemma structuredClone_decoded d v :
  destructure_value d = Normal v → structuredClone v = Normal v.
Proof.
  intros H. unfold structuredClone. by rewrite (destructure_value_clonable d v H).
Qed.

Lemma structuredClone_inv v c : structuredClone v = Normal c → c = v.
Proof. unfold structuredClone. destruct (clonable v); by intros [= <-]. Qed.

Lemma structuredClone_clonable v : clonable v = true → structuredClone v = Normal v.
Proof. unfold structuredClone. by intros ->. Qed.

Lemma JSON_stringify_wrapped_encodable v :
  encodable v = true →
  JSON_stringify_wrapped v
  = Normal (Json (JObj match to_json v with
                       | Some j => [("value", j)]
                       | None => []
                       end)).
Proof. unfold JSON_stringify_wrapped. by intros ->. Qed.

Lemma JSON_stringify_wrapped_inv v t :
  JSON_stringify_wrapped v = Normal t → encodable v = true.
Proof. unfold JSON_stringify_wrapped. by destruct (encodable v). Qed.

(** Every JSON value, [null] included, and [undefined] survive the way
    through the medium. *)
Lemma JSON_preserves_of_json d : JSON_preserves (of_json d).
Proof.
  exists (Json (JObj [("value", d)])). split; [|done].
  rewrite JSON_stringify_wrapped_encodable by apply encodable_of_json.
  by rewrite to_json_of_json.
Qed.

Lemma JSON_preserves_Undefined : JSON_preserves Undefined.
Proof. by exists (Json (JObj [])). Qed.

(** A value that survives is one that [set] stores without throwing. *)
Lemma JSON_preserves_storable v :
  JSON_preserves v → encodable v = true ∧ clonable v = true.
Proof.
  intros (t & Ht & Hr). split; [by apply (JSON_stringify_wrapped_inv v t)|].
  destruct t as [d|s]; [|done]. by apply (destructure_value_clonable d).
Qed.

(** ** Arrays of strings *)

Lemma mapM_as_string keys : mapM as_string (JStr <$> keys) = Some keys.
Proof.
  induction keys as [|k keys IH]; [done|].
  change (mapM as_string (JStr <$> keys) ≫= (λ ks, mret (k :: ks))
          = Some (k :: keys)).
  by rewrite IH.
Qed.

Lemma string_array_strings keys : string_array (strings keys) = Some keys.
Proof. apply mapM_as_string. Qed.

Lemma string_array_inv d keys : string_array d = Some keys → d = strings keys.
Proof.
  destruct d as [| | | |items|]; simpl; try done.
  intros E. unfold strings. f_equal. revert keys E.
  induction items as [|d items IH]; intros keys E; simpl in E.
  - by injection E as <-.
  - destruct d; simpl in E; try done.
    destruct (mapM as_string items) as [keys'|]; [|done].
    simpl in E. injection E as <-. simpl. f_equal. by apply IH.
Qed.

Lemma includes_strings keys key :
  keysArray_includes (strings keys) key = Normal (bool_decide (key ∈ keys)).
Proof.
  unfold strings, keysArray_includes. f_equal.
  induction keys as [|k keys IH]; [done|].
  rewrite fmap_cons. cbn [existsb strict_equals]. rewrite IH.
  destruct (decide (k = key)) as [->|Hne].
  - rewrite (bool_decide_eq_true_2 (key = key)) by done.
    by rewrite (bool_decide_eq_true_2 (key ∈ key :: keys))
      by apply list_elem_of_here.
  - rewrite (bool_decide_eq_false_2 (k = key)) by done. simpl.
    apply bool_decide_ext. rewrite elem_of_cons. split; [by right|].
    by intros [?|?]; [subst|].
Qed.

Lemma push_strings keys key :
  keysArray_push (strings keys) key = Normal (strings (keys ++ [key])%list).
Proof. unfold strings, keysArray_push. by rewrite fmap_app. Qed.

Lemma filter_strings keys key :
  keysArray_filter (strings keys) (λ savedKey, negb (strict_equals savedKey key))
  = Normal (strings (filter (λ savedKey, savedKey ≠ key) keys)).
Proof.
  unfold strings, keysArray_filter. do 2 f_equal.
  induction keys as [|k keys IH]; [done|].
  rewrite fmap_cons. cbn [List.filter strict_equals]. rewrite IH.
  destruct (decide (k = key)) as [->|Hne].
  - rewrite bool_decide_eq_true_2 by done. simpl.
    by rewrite filter_cons_False by (by intros ?).
  - rewrite bool_decide_eq_false_2 by done. simpl.
    by rewrite filter_cons_True by done.
Qed.

Lemma length_strings keys :
  keysArray_length (strings keys) = Normal (Num (Z.of_nat (length keys))).
Proof. unfold strings, keysArray_length. by rewrite length_fmap. Qed.

Lemma at_strings keys index :
  keysArray_at (strings keys) index
  = Normal match (if 0 <=? index then keys !! Z.to_nat index else None) with
           | Some key => Str key
           | None => Undefined
           end.
Proof.
  unfold strings, keysArray_at. destruct (0 <=? index); [|done].
  rewrite list_lookup_fmap. by destruct (keys !! Z.to_nat index).
Qed.

(** ** The methods on the medium that never throws *)

Ltac step_js :=
  cbv beta iota delta
    [bind ret throw this assign lift when_ try_catch keyName keyName_of
     fst snd
     window_localStorage_getItem window_localStorage_setItem
     window_localStorage_removeItem].

Lemma instance_eta (i : LocalStorageInterface) :
  {| storageName := storageName i; keysArrayName := keysArrayName i;
     useCache := useCache i; keysArrayCache := keysArrayCache i;
     keyValueCache := keyValueCache i |} = i.
Proof. by destruct i. Qed.

(** Taking the index changes neither the instance nor the medium: with the
    cache disabled [getKeysArray] assigns nothing. *)
Lemma current_keysArray_run (i : LocalStorageInterface) (m : localStorage) :
  current_keysArray (i, m) = (read_index i m, (i, m)).
Proof.
  unfold current_keysArray, getKeysArray, read_index. step_js. simpl.
  destruct (useCache i) eqn:Hc; [done|].
  destruct (m !! keysArrayName i) as [[d|]|]; simpl; try done.
  by rewrite Hc.
Qed.

Lemma index_of_read_index (i : LocalStorageInterface) (m : localStorage) keys :
  index_of (i, m) = Some keys → read_index i m = Normal (strings keys).
Proof.
  unfold index_of, read_index, persisted_keys. simpl.
  destruct (useCache i).
  - by intros ->%string_array_inv.
  - destruct (m !! keysArrayName i) as [[d|]|]; try done.
    by intros ->%string_array_inv.
Qed.

Lemma index_of_cached (i : LocalStorageInterface) (m : localStorage) keys :
  useCache i = true → index_of (i, m) = Some keys →
  keysArrayCache i = strings keys.
Proof.
  unfold index_of. simpl. intros ->. apply string_array_inv.
Qed.

Lemma forEach_items_run (i : LocalStorageInterface) items :
  ∀ m : localStorage,
  forEach_items items
    (λ key, bind (keyName_of key) (λ pk, window_localStorage_removeItem pk))
    (i, m)
  = ((remove_entries (storageName i) items m).1,
     (i, (remove_entries (storageName i) items m).2)).
Proof.
  induction items as [|d items IH]; intros m; [done|].
  cbn [forEach_items remove_entries]. unfold bind at 1. unfold bind at 1.
  unfold keyName_of at 1. step_js. simpl.
  destruct (ToString d) as [s|e]; simpl; [|done].
  apply IH.
Qed.

Lemma remove_entries_strings sn keys : ∀ m : localStorage,
  remove_entries sn (JStr <$> keys) m
  = (Normal tt, foldl (λ m key, delete (physical_key sn key) m) m keys).
Proof.
  induction keys as [|k keys IH]; intros m; [done|].
  rewrite fmap_cons. cbn [remove_entries foldl]. by rewrite <- IH.
Qed.

(** The loop removes only Entries of the namespace. *)
Lemma remove_entries_footprint sn items p : ∀ m : localStorage,
  (∀ key, p ≠ physical_key sn key) →
  (remove_entries sn items m).2 !! p = m !! p.
Proof.
  induction items as [|d items IH]; intros m Hp; [done|].
  cbn [remove_entries]. destruct (ToString d) as [s|e]; [|done].
  rewrite IH by done. by rewrite lookup_delete_ne.
Qed.

Lemma setItemSync_run (i : LocalStorageInterface) (m : localStorage) key v :
  key ≠ keysArrayName i →
  setItemSync key v (i, m)
  = match read_index i m with
    | Throw e => (Throw e, (i, m))
    | Normal keysArray =>
        match keysArray_includes keysArray key with
        | Throw e => (Throw e, (i, m))
        | Normal true => store_entry key v (i, m)
        | Normal false =>
            match keysArray_push keysArray key with
            | Throw e => (Throw e, (i, m))
            | Normal keysArray' =>
                store_entry key v
                  (if useCache i then set_keysArrayCache keysArray' i else i,
                   <[keysArrayName i := Json keysArray']> m)
            end
        end
    end.
Proof.
  intros Hk. unfold setItemSync. step_js.
  rewrite (bool_decide_eq_false_2 _ Hk), current_keysArray_run.
  destruct (read_index i m) as [keysArray|e]; [|done].
  unfold store_entry.
  destruct (keysArray_includes keysArray key) as [[|]|e]; simpl; [| |done].
  - destruct (JSON_stringify_wrapped v) as [t|e]; simpl; [|done].
    destruct (useCache i); simpl; [|done].
    by destruct (structuredClone v).
  - destruct (keysArray_push keysArray key) as [keysArray'|e]; simpl; [|done].
    destruct (useCache i) eqn:Hc; simpl; rewrite ?Hc.
    + destruct (JSON_stringify_wrapped v) as [t|e]; simpl; [|done].
      by destruct (structuredClone v).
    + by destruct (JSON_stringify_wrapped v) as [t|e].
Qed.

(** On an index that is an array of strings. *)
Lemma setItemSync_typed (i : LocalStorageInterface) (m : localStorage)
  key v keys :
  key ≠ keysArrayName i → index_of (i, m) = Some keys →
  let keys' := if bool_decide (key ∈ keys) then keys else (keys ++ [key])%list in
  setItemSync key v (i, m)
  = store_entry key v
      (if useCache i then set_keysArrayCache (strings keys') i else i,
       if bool_decide (key ∈ keys) then m
       else <[keysArrayName i := Json (strings keys')]> m).
Proof.
  intros Hk Hidx keys'. rewrite setItemSync_run by done.
  rewrite (index_of_read_index _ _ _ Hidx), includes_strings. subst keys'.
  destruct (bool_decide (key ∈ keys)); [|by rewrite push_strings].
  destruct (useCache i) eqn:Hc; [|done].
  rewrite <- (index_of_cached i m keys Hc Hidx).
  unfold set_keysArrayCache. by rewrite instance_eta.
Qed.

Lemma removeItemSync_run (i : LocalStorageInterface) (m : localStorage) key :
  removeItemSync key (i, m)
  = match read_index i m with
    | Throw e => (Throw e, (i, m))
    | Normal keysArray =>
        match keysArray_filter keysArray
                (λ savedKey, negb (strict_equals savedKey key)) with
        | Throw e => (Throw e, (i, m))
        | Normal updated =>
            (Normal tt,
             (if useCache i
              then set_keysArrayCache updated
                     (set_keyValueCache (delete key (keyValueCache i)) i)
              else i,
              delete (physical_key (storageName i) key)
                (<[keysArrayName i := Json updated]> m)))
        end
    end.
Proof.
  unfold removeItemSync. step_js. rewrite current_keysArray_run.
  destruct (read_index i m) as [keysArray|e]; [|done].
  destruct (keysArray_filter keysArray _) as [updated|e]; simpl; [|done].
  by destruct (useCache i).
Qed.

Lemma removeItemSync_typed (i : LocalStorageInterface) (m : localStorage)
  key keys :
  index_of (i, m) = Some keys →
  let updated := filter (λ savedKey, savedKey ≠ key) keys in
  removeItemSync key (i, m)
  = (Normal tt,
     (if useCache i
      then set_keysArrayCache (strings updated)
             (set_keyValueCache (delete key (keyValueCache i)) i)
      else i,
      delete (physical_key (storageName i) key)
        (<[keysArrayName i := Json (strings updated)]> m))).
Proof.
  intros Hidx updated. rewrite removeItemSync_run.
  by rewrite (index_of_read_index _ _ _ Hidx), filter_strings.
Qed.

Lemma clearSync_run (i : LocalStorageInterface) (m : localStorage) :
  clearSync (i, m)
  = match read_index i m with
    | Throw e => (Throw e, (i, m))
    | Normal (JArr items) =>
        match remove_entries (storageName i) items m with
        | (Throw e, m') => (Throw e, (i, m'))
        | (Normal _, m') =>
            (Normal tt,
             (if useCache i
              then set_keysArrayCache (JArr []) (set_keyValueCache ∅ i)
              else i,
              <[keysArrayName i := Json (JArr [])]> m'))
        end
    | Normal _ => (Throw TypeError, (i, m))
    end.
Proof.
  unfold clearSync.
  unfold bind at 1. unfold this at 1. unfold bind at 1.
  rewrite current_keysArray_run. simpl.
  destruct (read_index i m) as [[| | | |items|]|e]; try done.
  unfold keysArray_forEach. unfold bind at 1.
  rewrite forEach_items_run.
  destruct (remove_entries (storageName i) items m) as [[[]|e] m']; [|done].
  step_js. simpl. by destruct (useCache i).
Qed.

Lemma clearSync_typed (i : LocalStorageInterface) (m : localStorage) keys :
  index_of (i, m) = Some keys →
  clearSync (i, m)
  = (Normal tt,
     (if useCache i
      then set_keysArrayCache (strings []) (set_keyValueCache ∅ i)
      else i,
      <[keysArrayName i := Json (strings [])]>
        (foldl (λ m key, delete (physical_key (storageName i) key) m) m keys))).
Proof.
  intros Hidx. rewrite clearSync_run, (index_of_read_index _ _ _ Hidx).
  unfold strings at 1. by rewrite remove_entries_strings.
Qed.

Lemma sizeSync_run (i : LocalStorageInterface) (m : localStorage) :
  sizeSync (i, m)
  = (match read_index i m with
     | Throw e => Throw e
     | Normal keysArray => keysArray_length keysArray
     end, (i, m)).
Proof.
  unfold sizeSync. step_js. rewrite current_keysArray_run.
  by destruct (read_index i m).
Qed.

Lemma sizeSync_typed (st : LocalStorageInterface * localStorage) keys :
  index_of st = Some keys →
  sizeSync st = (Normal (Num (Z.of_nat (length keys))), st).
Proof.
  destruct st as [i m]. intros Hidx.
  by rewrite sizeSync_run, (index_of_read_index _ _ _ Hidx), length_strings.
Qed.

Lemma keySync_run (i : LocalStorageInterface) (m : localStorage) index :
  keySync index (i, m)
  = (match read_index i m with
     | Throw e => Throw e
     | Normal keysArray => keysArray_at keysArray index
     end, (i, m)).
Proof.
  unfold keySync. step_js. rewrite current_keysArray_run.
  by destruct (read_index i m).
Qed.

Lemma keySync_typed (st : LocalStorageInterface * localStorage) index keys :
  index_of st = Some keys →
  keySync index st
  = (Normal match (if 0 <=? index then keys !! Z.to_nat index else None) with
            | Some key => Str key
            | None => Undefined
            end, st).
Proof.
  destruct st as [i m]. intros Hidx.
  by rewrite keySync_run, (index_of_read_index _ _ _ Hidx), at_strings.
Qed.

(** When the index cannot be read, every method that needs it throws what
    the read threw and leaves the instance and the medium as they were. *)
Lemma index_methods_throw (st : LocalStorageInterface * localStorage) e :
  read_index st.1 st.2 = Throw e →
  (∀ key v, key ≠ keysArrayName st.1 → setItemSync key v st = (Throw e, st)) ∧
  (∀ key, removeItemSync key st = (Throw e, st)) ∧
  clearSync st = (Throw e, st) ∧
  sizeSync st = (Throw e, st) ∧
  (∀ index, keySync index st = (Throw e, st)).
Proof.
  destruct st as [i m]. simpl. intros H. split_and!; intros.
  - by rewrite setItemSync_run, H.
  - by rewrite removeItemSync_run, H.
  - by rewrite clearSync_run, H.
  - by rewrite sizeSync_run, H.
  - by rewrite keySync_run, H.
Qed.

Lemma setItemSync_reserved {M} `{!Storage M} (st : LocalStorageInterface * M) v :
  setItemSync (keysArrayName st.1) v st
  = (Throw (Error ("storage-facade: " +:+ interfaceName +:+ ":" +:+ "key '"
                   +:+ keysArrayName st.1 +:+ "' cannot be used.")), st).
Proof.
  unfold setItemSync. step_js. by rewrite bool_decide_eq_true_2.
Qed.

(** [get] leaves the medium alone, and changes at most the value mirror, by
    the decoded Entry it has just read. *)
Lemma getItemSync_run (i : LocalStorageInterface) (m : localStorage) key :
  getItemSync key (i, m)
  = match (if useCache i then keyValueCache i !! key else None) with
    | Some v => (structuredClone v, (i, m))
    | None =>
        match m !! physical_key (storageName i) key with
        | None => (Normal Undefined, (i, m))
        | Some (NotJson _) => (Throw SyntaxError, (i, m))
        | Some (Json d) =>
            match destructure_value d with
            | Normal v =>
                (Normal v,
                 (if useCache i
                  then set_keyValueCache (<[key := v]> (keyValueCache i)) i
                  else i, m))
            | Throw e => (Throw e, (i, m))
            end
        end
    end.
Proof.
  unfold getItemSync. step_js. simpl.
  destruct (useCache i) eqn:Hc; [destruct (keyValueCache i !! key); [done|]|];
    (destruct (m !! physical_key (storageName i) key) as [[d|]|]; simpl;
     [|done..]);
    destruct (destructure_value d) as [v|e] eqn:Hd; simpl; try done.
  by rewrite (structuredClone_decoded d v Hd).
Qed.

(** What [get] answers depends on the cache switch, the cache slot of the
    key and the Entry of the key only. *)
Lemma getItemSync_ext (st st' : LocalStorageInterface * localStorage) key :
  useCache st'.1 = useCache st.1 →
  storageName st'.1 = storageName st.1 →
  (useCache st.1 = true →
   keyValueCache st'.1 !! key = keyValueCache st.1 !! key) →
  st'.2 !! physical_key (storageName st.1) key
    = st.2 !! physical_key (storageName st.1) key →
  (getItemSync key st').1 = (getItemSync key st).1.
Proof.
  destruct st as [i m], st' as [i' m']. simpl. intros Hc Hsn Hslot Hentry.
  rewrite !getItemSync_run, Hc, Hsn, Hentry.
  destruct (useCache i).
  - rewrite Hslot by done. destruct (keyValueCache i !! key); [done|].
    destruct (m !! physical_key (storageName i) key) as [[d|]|]; try done.
    by destruct (destructure_value d).
  - destruct (m !! physical_key (storageName i) key) as [[d|]|]; try done.
    by destruct (destructure_value d).
Qed.

Lemma persisted_keys_ext (i i' : LocalStorageInterface) (m m' : localStorage) :
  keysArrayName i' = keysArrayName i →
  m' !! keysArrayName i = m !! keysArrayName i →
  persisted_keys i' m' = persisted_keys i m.
Proof. unfold persisted_keys. by intros -> ->. Qed.

Lemma persisted_value_ext (i i' : LocalStorageInterface) (m m' : localStorage) key :
  storageName i' = storageName i →
  m' !! physical_key (storageName i) key = m !! physical_key (storageName i) key →
  persisted_value i' m' key = persisted_value i m key.
Proof. unfold persisted_value. by intros -> ->. Qed.

Lemma persisted_keys_written (i : LocalStorageInterface) (m : localStorage) keys :
  m !! keysArrayName i = Some (Json (strings keys)) →
  persisted_keys i m = Some keys.
Proof.
  unfold persisted_keys. intros ->. apply string_array_strings.
Qed.

Lemma persisted_keys_inv (i : LocalStorageInterface) (m : localStorage) keys :
  persisted_keys i m = Some keys →
  m !! keysArrayName i = Some (Json (strings keys)).
Proof.
  unfold persisted_keys.
  destruct (m !! keysArrayName i) as [[d|]|]; try done.
  by intros ->%string_array_inv.
Qed.

Lemma initialized_index (st : LocalStorageInterface * localStorage) :
  initialized st →
  ∃ keys, index_of st = Some keys ∧ persisted_keys st.1 st.2 = Some keys.
Proof.
  intros (_ & [keys Hk] & Hm). exists keys. split; [|done].
  unfold index_of. destruct (useCache st.1); [|done].
  destruct (Hm eq_refl) as [Hmk _]. unfold index_mirrored in Hmk.
  apply persisted_keys_inv in Hk. rewrite Hk in Hmk. injection Hmk as <-.
  apply string_array_strings.
Qed.

(** Removing the Entries of a list of keys: the listed Entries are gone and
    nothing else moves. *)
Lemma lookup_foldl_delete sn keys : ∀ (m : localStorage) p,
  foldl (λ m key, delete (physical_key sn key) m) m keys !! p
  = if bool_decide (p ∈ physical_key sn <$> keys) then None else m !! p.
Proof.
  induction keys as [|k keys IH]; intros m p; [done|].
  cbn [foldl]. rewrite IH, fmap_cons.
  destruct (decide (p = physical_key sn k)) as [->|Hne].
  - rewrite lookup_delete_eq.
    rewrite (bool_decide_eq_true_2 (_ ∈ _ :: _)) by apply list_elem_of_here.
    by case_bool_decide.
  - rewrite lookup_delete_ne by done.
    destruct (decide (p ∈ physical_key sn <$> keys)) as [Hin|Hin].
    + rewrite !bool_decide_eq_true_2; [done| by apply list_elem_of_further | done].
    + rewrite !bool_decide_eq_false_2; [done| |done].
      rewrite elem_of_cons. by intros [?|?].
Qed.


(** ** What each method does to an initialized namespace *)

Lemma initialized_intro (i : LocalStorageInterface) (m : localStorage) keys :
  keysArrayName i = index_key (storageName i) →
  m !! keysArrayName i = Some (Json (strings keys)) →
  (useCache i = true → keysArrayCache i = strings keys ∧ cached_present (i, m)) →
  initialized (i, m) ∧ index_of (i, m) = Some keys.
Proof.
  intros Hn Hrec Hc.
  assert (Hpk : persisted_keys i m = Some keys) by by apply persisted_keys_written.
  split.
  - unfold initialized, index_mirrored. simpl. split_and!; [done|by eauto|].
    intros Huc. destruct (Hc Huc) as [-> ?]. done.
  - unfold index_of. simpl. destruct (useCache i); [|done].
    destruct (Hc eq_refl) as [-> _]. apply string_array_strings.
Qed.

Lemma initialized_record (st : LocalStorageInterface * localStorage) keys :
  initialized st → index_of st = Some keys →
  st.2 !! keysArrayName st.1 = Some (Json (strings keys)).
Proof.
  intros Hinit Hidx. destruct (initialized_index _ Hinit) as (keys' & Hidx' & Hpk).
  rewrite Hidx in Hidx'. injection Hidx' as <-. by apply persisted_keys_inv.
Qed.

(** The Entry part of [set]: whether the encoding throws, the clone throws
    or both return, the namespace stays initialized and only the Entry and
    the cache slot of the key can have changed. *)
Lemma store_entry_spec (st : LocalStorageInterface * localStorage) key v :
  initialized st →
  ∃ r (st' : LocalStorageInterface * localStorage),
    store_entry key v st = (r, st') ∧
    initialized st' ∧
    storageName st'.1 = storageName st.1 ∧
    keysArrayName st'.1 = keysArrayName st.1 ∧
    useCache st'.1 = useCache st.1 ∧
    index_of st' = index_of st ∧
    (∀ p, p ≠ physical_key (storageName st.1) key → st'.2 !! p = st.2 !! p) ∧
    (∀ key', key' ≠ key →
       keyValueCache st'.1 !! key' = keyValueCache st.1 !! key') ∧
    (∀ t, JSON_stringify_wrapped v = Normal t →
       st'.2 !! physical_key (storageName st.1) key = Some t) ∧
    (encodable v = true → (useCache st.1 = true → clonable v = true) →
       r = Normal tt ∧
       (useCache st.1 = true → keyValueCache st'.1 !! key = Some v)).
Proof.
  destruct st as [i m]. intros Hinit.
  destruct (initialized_index _ Hinit) as (keys & Hidx & Hpk).
  pose proof (persisted_keys_inv _ _ _ Hpk) as Hrec.
  destruct Hinit as (Hn & _ & Hm). simpl in *.
  assert (Hne : physical_key (storageName i) key ≠ keysArrayName i).
  { rewrite Hn. apply physical_key_ne_index_key. }
  unfold store_entry. simpl.
  destruct (JSON_stringify_wrapped v) as [t|e] eqn:Ht.
  2:{ eexists _, _. split; [done|]. split_and!; try done.
      intros He. unfold JSON_stringify_wrapped in Ht. by rewrite He in Ht. }
  set (m' := <[physical_key (storageName i) key := t]> m).
  assert (Hrec' : m' !! keysArrayName i = Some (Json (strings keys))).
  { unfold m'. by rewrite lookup_insert_ne. }
  assert (Hframe : ∀ p, p ≠ physical_key (storageName i) key → m' !! p = m !! p).
  { intros p Hp. unfold m'. by rewrite lookup_insert_ne. }
  assert (Hval : m' !! physical_key (storageName i) key = Some t).
  { unfold m'. by rewrite lookup_insert_eq. }
  assert (Hpres : ∀ c : gmap string value,
            (∀ key', key' ≠ key → c !! key' = keyValueCache i !! key') →
            useCache i = true →
            cached_present (set_keyValueCache c i, m')).
  { intros c Hc Huc key' Hs. simpl in *.
    destruct (decide (key' = key)) as [->|Hkk]; [by rewrite Hval|].
    rewrite Hc in Hs by done. rewrite Hframe.
    - by apply (proj2 (Hm Huc)).
    - intros Heq. by apply physical_key_inj in Heq. }
  destruct (useCache i) eqn:Huc.
  - destruct (Hm eq_refl) as [Hmk Hmp].
    assert (Hkc : keysArrayCache i = strings keys).
    { unfold index_mirrored in Hmk. simpl in Hmk. rewrite Hrec in Hmk.
      by injection Hmk. }
    destruct (structuredClone v) as [c|e] eqn:Hclone.
    + apply structuredClone_inv in Hclone as ->.
      destruct (initialized_intro (set_keyValueCache (<[key := v]> (keyValueCache i)) i)
                  m' keys) as [Hinit' Hidx']; simpl; try done.
      { intros _. split; [done|]. apply Hpres; [|done].
        intros key' Hkk. by rewrite lookup_insert_ne. }
      eexists _, _. split; [done|]. split_and!; simpl; try done.
      * by rewrite Hidx'.
      * intros key' Hkk. by rewrite lookup_insert_ne.
      * by intros ? [= ->].
      * intros _ _. split; [done|]. intros _. by rewrite lookup_insert_eq.
    + destruct (initialized_intro i m' keys) as [Hinit' Hidx']; simpl; try done.
      { intros _. split; [done|]. rewrite <- (instance_eta i).
        apply (Hpres (keyValueCache i)); done. }
      eexists _, _. split; [done|]. split_and!; simpl; try done.
      * by rewrite Hidx'.
      * by intros ? [= ->].
      * intros _ Hcl. unfold structuredClone in Hclone.
        by rewrite Hcl in Hclone.
  - destruct (initialized_intro i m' keys) as [Hinit' Hidx']; simpl; try done.
    { by rewrite Huc. }
    eexists _, _. split; [done|]. split_and!; simpl; try done.
    + by rewrite Hidx'.
    + by intros ? [= ->].
Qed.

Lemma setItemSync_spec (st : LocalStorageInterface * localStorage) key v keys :
  initialized st → key ≠ keysArrayName st.1 → index_of st = Some keys →
  ∃ r (st' : LocalStorageInterface * localStorage),
    setItemSync key v st = (r, st') ∧
    initialized st' ∧
    storageName st'.1 = storageName st.1 ∧
    keysArrayName st'.1 = keysArrayName st.1 ∧
    useCache st'.1 = useCache st.1 ∧
    index_of st' = Some (if bool_decide (key ∈ keys) then keys
                         else (keys ++ [key])%list) ∧
    (∀ p, p ≠ physical_key (storageName st.1) key → p ≠ keysArrayName st.1 →
          st'.2 !! p = st.2 !! p) ∧
    (∀ key', key' ≠ key →
       keyValueCache st'.1 !! key' = keyValueCache st.1 !! key') ∧
    (∀ t, JSON_stringify_wrapped v = Normal t →
       st'.2 !! physical_key (storageName st.1) key = Some t) ∧
    (encodable v = true → (useCache st.1 = true → clonable v = true) →
       r = Normal tt ∧
       (useCache st.1 = true → keyValueCache st'.1 !! key = Some v)).
Proof.
  destruct st as [i m]. simpl. intros Hinit Hk Hidx.
  pose proof (initialized_record _ _ Hinit Hidx) as Hrec.
  rewrite (setItemSync_typed i m key v keys Hk Hidx). cbv zeta.
  destruct Hinit as (Hn & _ & Hm). simpl in Hn, Hm, Hrec.
  set (keys' := if bool_decide (key ∈ keys) then keys else (keys ++ [key])%list).
  set (i1 := if useCache i then set_keysArrayCache (strings keys') i else i).
  set (m1 := if bool_decide (key ∈ keys) then m
             else <[keysArrayName i := Json (strings keys')]> m).
  assert (Hi1 : storageName i1 = storageName i ∧
                keysArrayName i1 = keysArrayName i ∧
                useCache i1 = useCache i ∧
                keyValueCache i1 = keyValueCache i).
  { unfold i1. destruct (useCache i) eqn:Huc; simpl; by rewrite ?Huc. }
  destruct Hi1 as (Hsn1 & Hkn1 & Hc1 & Hkv1).
  assert (Hframe1 : ∀ p, p ≠ keysArrayName i → m1 !! p = m !! p).
  { intros p Hp. unfold m1. destruct (bool_decide (key ∈ keys)); [done|].
    by rewrite lookup_insert_ne. }
  destruct (initialized_intro i1 m1 keys') as [Hinit1 Hidx1].
  { by rewrite Hkn1, Hsn1. }
  { rewrite Hkn1. unfold m1, keys'. destruct (bool_decide (key ∈ keys)); [done|].
    by rewrite lookup_insert_eq. }
  { rewrite Hc1. intros Huc. split; [unfold i1; by rewrite Huc|].
    intros key' Hs. simpl in *. rewrite Hkv1 in Hs. rewrite Hsn1, Hframe1.
    - by apply (proj2 (Hm Huc)).
    - rewrite Hn. apply physical_key_ne_index_key. }
  destruct (store_entry_spec (i1, m1) key v Hinit1)
    as (r & st' & Hrun & Hinit' & Hsn & Hkn & Hc & Hidx' & Hframe & Hslots
        & Hval & Hok).
  simpl in *. exists r, st'. split; [done|].
  rewrite Hsn1 in *. rewrite Hkv1 in *. rewrite Hc1 in *.
  split_and!; try done; try congruence.
  intros p Hp1 Hp2. rewrite Hframe by done. by apply Hframe1.
Qed.

Lemma removeItemSync_spec (st : LocalStorageInterface * localStorage) key keys :
  initialized st → index_of st = Some keys →
  ∃ st' : LocalStorageInterface * localStorage,
    removeItemSync key st = (Normal tt, st') ∧
    initialized st' ∧
    storageName st'.1 = storageName st.1 ∧
    keysArrayName st'.1 = keysArrayName st.1 ∧
    useCache st'.1 = useCache st.1 ∧
    index_of st' = Some (filter (λ savedKey, savedKey ≠ key) keys) ∧
    st'.2 !! physical_key (storageName st.1) key = None ∧
    (∀ p, p ≠ physical_key (storageName st.1) key → p ≠ keysArrayName st.1 →
          st'.2 !! p = st.2 !! p) ∧
    (∀ key', key' ≠ key →
       keyValueCache st'.1 !! key' = keyValueCache st.1 !! key') ∧
    (useCache st.1 = true → keyValueCache st'.1 !! key = None).
Proof.
  destruct st as [i m]. simpl. intros Hinit Hidx.
  rewrite (removeItemSync_typed i m key keys Hidx). cbv zeta.
  destruct Hinit as (Hn & _ & Hm). simpl in Hn, Hm.
  assert (Hne : ∀ k, physical_key (storageName i) k ≠ keysArrayName i).
  { intros k. rewrite Hn. apply physical_key_ne_index_key. }
  set (updated := filter (λ savedKey, savedKey ≠ key) keys).
  set (m' := delete (physical_key (storageName i) key)
               (<[keysArrayName i := Json (strings updated)]> m)).
  assert (Hframe : ∀ p, p ≠ physical_key (storageName i) key →
                        p ≠ keysArrayName i → m' !! p = m !! p).
  { intros p Hp1 Hp2. unfold m'.
    by rewrite lookup_delete_ne, lookup_insert_ne. }
  assert (Hrec' : m' !! keysArrayName i = Some (Json (strings updated))).
  { unfold m'. rewrite lookup_delete_ne by done. by rewrite lookup_insert_eq. }
  assert (Hval : m' !! physical_key (storageName i) key = None).
  { unfold m'. by rewrite lookup_delete_eq. }
  eexists. split; [done|].
  destruct (useCache i) eqn:Hc.
  - destruct (initialized_intro
                (set_keysArrayCache (strings updated)
                   (set_keyValueCache (delete key (keyValueCache i)) i))
                m' updated) as [Hinit' Hidx']; simpl; try done.
    { intros _. split; [done|]. intros key' Hs. simpl in *.
      destruct (decide (key' = key)) as [->|Hkk].
      { by rewrite lookup_delete_eq in Hs; destruct Hs. }
      rewrite lookup_delete_ne in Hs by done.
      rewrite Hframe; [by apply (proj2 (Hm eq_refl))| |done].
      intros Heq. by apply physical_key_inj in Heq. }
    split_and!; simpl; try done.
    + intros key' Hkk. by rewrite lookup_delete_ne.
    + intros _. by rewrite lookup_delete_eq.
  - destruct (initialized_intro i m' updated) as [Hinit' Hidx']; simpl; try done.
    by rewrite Hc.
Qed.

Lemma clearSync_spec (st : LocalStorageInterface * localStorage) keys :
  initialized st → index_of st = Some keys →
  ∃ st' : LocalStorageInterface * localStorage,
    clearSync st = (Normal tt, st') ∧
    initialized st' ∧
    storageName st'.1 = storageName st.1 ∧
    keysArrayName st'.1 = keysArrayName st.1 ∧
    useCache st'.1 = useCache st.1 ∧
    index_of st' = Some [] ∧
    (useCache st.1 = true → keyValueCache st'.1 = ∅) ∧
    (∀ key, key ∈ keys → st'.2 !! physical_key (storageName st.1) key = None) ∧
    (∀ p, p ∉ physical_key (storageName st.1) <$> keys →
          p ≠ keysArrayName st.1 → st'.2 !! p = st.2 !! p).
Proof.
  destruct st as [i m]. simpl. intros Hinit Hidx.
  rewrite (clearSync_typed i m keys Hidx).
  destruct Hinit as (Hn & _ & Hm). simpl in Hn, Hm.
  assert (Hne : ∀ k, physical_key (storageName i) k ≠ keysArrayName i).
  { intros k. rewrite Hn. apply physical_key_ne_index_key. }
  set (m' := <[keysArrayName i := Json (strings [])]>
               (foldl (λ m key, delete (physical_key (storageName i) key) m)
                      m keys)).
  assert (Hrec' : m' !! keysArrayName i = Some (Json (strings []))).
  { unfold m'. by rewrite lookup_insert_eq. }
  assert (Hgone : ∀ key, key ∈ keys →
                         m' !! physical_key (storageName i) key = None).
  { intros key Hin. unfold m'. rewrite lookup_insert_ne by done.
    rewrite lookup_foldl_delete, bool_decide_eq_true_2; [done|].
    by apply list_elem_of_fmap_2. }
  assert (Hframe : ∀ p, p ∉ physical_key (storageName i) <$> keys →
                        p ≠ keysArrayName i → m' !! p = m !! p).
  { intros p Hp1 Hp2. unfold m'. rewrite lookup_insert_ne by done.
    by rewrite lookup_foldl_delete, bool_decide_eq_false_2. }
  eexists. split; [done|].
  destruct (useCache i) eqn:Hc.
  - destruct (initialized_intro
                (set_keysArrayCache (strings []) (set_keyValueCache ∅ i))
                m' []) as [Hinit' Hidx']; simpl; try done.
    intros _. split; [done|]. intros key' Hs. simpl in Hs.
    rewrite lookup_empty in Hs. by destruct Hs.
  - destruct (initialized_intro i m' []) as [Hinit' Hidx']; simpl; try done.
    by rewrite Hc.
Qed.

Lemma getItemSync_spec (st : LocalStorageInterface * localStorage) key :
  (useCache st.1 = true → cached_present st) →
  ∃ r (st' : LocalStorageInterface * localStorage),
    getItemSync key st = (r, st') ∧
    (useCache st.1 = true → cached_present st') ∧
    storageName st'.1 = storageName st.1 ∧
    keysArrayName st'.1 = keysArrayName st.1 ∧
    useCache st'.1 = useCache st.1 ∧
    keysArrayCache st'.1 = keysArrayCache st.1 ∧
    st'.2 = st.2 ∧
    (∀ key', key' ≠ key →
       keyValueCache st'.1 !! key' = keyValueCache st.1 !! key') ∧
    (∀ v, keyValueCache st.1 !! key = Some v →
          keyValueCache st'.1 !! key = Some v) ∧
    (st.2 !! physical_key (storageName st.1) key = None →
     r = Normal Undefined ∧ st' = st) ∧
    (∀ v, useCache st.1 = true → keyValueCache st.1 !! key = Some v →
          r = structuredClone v) ∧
    (useCache st.1 = false →
     r = read_entry (st.2 !! physical_key (storageName st.1) key)).
Proof.
  destruct st as [i m]. simpl. intros Hm.
  rewrite getItemSync_run.
  destruct (useCache i) eqn:Hc.
  - specialize (Hm eq_refl).
    destruct (keyValueCache i !! key) as [w|] eqn:Hw.
    + eexists _, _. split; [done|]. split_and!; try done.
      * by intros v [= ->].
      * intros Hnone. destruct (Hm key) as [t Ht]; [simpl; by rewrite Hw|].
        simpl in Ht. by rewrite Hnone in Ht.
      * by intros v _ [= ->].
    + destruct (m !! physical_key (storageName i) key) as [[d|]|] eqn:Hp;
        [destruct (destructure_value d) as [w|] eqn:Hd|..];
        eexists _, _; (split; [done|]); split_and!; simpl; try done.
      * intros _ key' Hs. simpl in *.
        destruct (decide (key' = key)) as [->|Hkk]; [by rewrite Hp|].
        rewrite lookup_insert_ne in Hs by done. by apply Hm.
      * intros key' Hkk. by rewrite lookup_insert_ne.
  - destruct (m !! physical_key (storageName i) key) as [[d|]|] eqn:Hp;
      [destruct (destructure_value d) as [w|] eqn:Hd|..];
      eexists _, _; (split; [done|]); split_and!; simpl; try done.
Qed.

(** ** Sequences of calls *)

Lemma perform_state {M} `{!Storage M} (c : call) (st : LocalStorageInterface * M) :
  (perform c st).2
  = match c with
    | Get key => (getItemSync key st).2
    | Set_ key v => (setItemSync key v st).2
    | Remove key => (removeItemSync key st).2
    | Clear => (clearSync st).2
    | Size => (sizeSync st).2
    | KeyAt index => (keySync index st).2
    end.
Proof.
  destruct c; unfold perform, bind, ret;
    match goal with |- context [match ?x with _ => _ end] =>
      by destruct x as [[?|?] ?] end.
Qed.

Lemma after_cons {M} `{!Storage M} (c : call) calls (st : LocalStorageInterface * M) :
  after (c :: calls) st = after calls (perform c st).2.
Proof. done. Qed.

Lemma after_app {M} `{!Storage M} calls1 calls2 (st : LocalStorageInterface * M) :
  after (calls1 ++ calls2) st = after calls2 (after calls1 st).
Proof. unfold after. by rewrite foldl_app. Qed.

(** [get] does not change what the methods see as the index. *)
Lemma getItemSync_index_of (st : LocalStorageInterface * localStorage) key :
  (useCache st.1 = true → cached_present st) →
  index_of (getItemSync key st).2 = index_of st ∧
  (getItemSync key st).2.2 = st.2.
Proof.
  intros Hm.
  destruct (getItemSync_spec st key Hm)
    as (r & st' & -> & _ & Hsn & Hkn & Hc & Hkc & Hmed & _).
  simpl. split; [|done]. unfold index_of. rewrite Hc, Hkc.
  destruct (useCache st.1); [done|].
  apply persisted_keys_ext; [done|]. by rewrite Hmed.
Qed.

(** Every call keeps an initialized namespace initialized, and none renames
    it or switches its cache. *)
Lemma perform_initialized (c : call) (st : LocalStorageInterface * localStorage) :
  initialized st →
  initialized (perform c st).2 ∧
  storageName (perform c st).2.1 = storageName st.1 ∧
  keysArrayName (perform c st).2.1 = keysArrayName st.1 ∧
  useCache (perform c st).2.1 = useCache st.1.
Proof.
  intros Hinit. rewrite perform_state.
  destruct (initialized_index _ Hinit) as (keys & Hidx & Hpk).
  destruct c as [key|key v|key| | |index].
  - destruct Hinit as (Hn & Hs & Hm).
    destruct (getItemSync_spec st key (λ H, proj2 (Hm H)))
      as (r & st' & -> & Hm' & Hsn & Hkn & Hc & Hkc & Hmed & _).
    simpl. split_and!; try done. unfold initialized, index_mirrored.
    rewrite Hsn, Hkn, Hc, Hkc, Hmed. split_and!; try done.
    + rewrite (persisted_keys_ext st.1 st'.1 st.2 st.2); done.
    + intros Huc. split; [by apply Hm|]. by apply Hm'.
  - destruct (decide (key = keysArrayName st.1)) as [->|Hk].
    + by rewrite setItemSync_reserved.
    + destruct (setItemSync_spec st key v keys Hinit Hk Hidx)
        as (r & st' & -> & ? & ? & ? & ? & _). done.
  - destruct (removeItemSync_spec st key keys Hinit Hidx)
      as (st' & -> & ? & ? & ? & ? & _). done.
  - destruct (clearSync_spec st keys Hinit Hidx)
      as (st' & -> & ? & ? & ? & ? & _). done.
  - by rewrite (sizeSync_typed _ _ Hidx).
  - by rewrite (keySync_typed _ _ _ Hidx).
Qed.

Lemma after_initialized calls : ∀ st : LocalStorageInterface * localStorage,
  initialized st →
  initialized (after calls st) ∧
  storageName (after calls st).1 = storageName st.1 ∧
  keysArrayName (after calls st).1 = keysArrayName st.1 ∧
  useCache (after calls st).1 = useCache st.1.
Proof.
  induction calls as [|c calls IH]; intros st Hinit; [done|].
  rewrite after_cons.
  destruct (perform_initialized c st Hinit) as (Hi & Hsn & Hkn & Hc).
  destruct (IH _ Hi) as (? & ? & ? & ?). split_and!; congruence.
Qed.

(** ** Initialization *)

(** [initSync] checks nothing about the index record it finds: with the
    cache requested, whatever document the record holds is loaded. *)
Lemma initSync_run (setup : Setup) (i : LocalStorageInterface) (m : localStorage) :
  let sn := default defaultStorageName (name setup) in
  let uc := default defaultUseCache (setup_useCache setup) in
  let i0 := set_names sn (index_key sn) uc i in
  initSync setup (i, m)
  = match m !! index_key sn with
    | None => (Normal None, (i0, <[index_key sn := Json (JArr [])]> m))
    | Some t =>
        if uc then
          match t with
          | Json d => (Normal None, (set_keysArrayCache d i0, m))
          | NotJson _ => (Normal (Some SyntaxError), (i0, m))
          end
        else (Normal None, (i0, m))
    end.
Proof.
  intros sn uc i0. unfold initSync. step_js. simpl.
  fold sn uc.
  destruct (m !! index_key sn) as [[d|]|]; simpl; try done.
  - by destruct uc.
  - by destruct uc.
Qed.

Lemma initSync_initialized (setup : Setup) (m : localStorage) :
  index_absent_or_decodable (default defaultStorageName (name setup)) m →
  (initSync setup (new_LocalStorageInterface, m)).1 = Normal None ∧
  initialized (initSync setup (new_LocalStorageInterface, m)).2 ∧
  storageName (initSync setup (new_LocalStorageInterface, m)).2.1
    = default defaultStorageName (name setup) ∧
  useCache (initSync setup (new_LocalStorageInterface, m)).2.1
    = default defaultUseCache (setup_useCache setup) ∧
  keyValueCache (initSync setup (new_LocalStorageInterface, m)).2.1 = ∅.
Proof.
  unfold index_absent_or_decodable. rewrite initSync_run. cbv zeta.
  set (sn := default defaultStorageName (name setup)).
  set (uc := default defaultUseCache (setup_useCache setup)).
  assert (Hempty : ∀ i (m' : localStorage),
            keyValueCache i = ∅ → cached_present (i, m')).
  { intros i m' Hi key Hs. simpl in Hs. rewrite Hi, lookup_empty in Hs.
    by destruct Hs. }
  destruct (m !! index_key sn) as [[d|]|] eqn:Hm; [| done |].
  - intros [keys Hd]. apply string_array_inv in Hd as ->.
    destruct uc eqn:Huc.
    + destruct (initialized_intro
                  (set_keysArrayCache (strings keys)
                     (set_names sn (index_key sn) true new_LocalStorageInterface))
                  m keys) as [Hinit _]; simpl; try done.
      intros _. split; [done|]. by apply Hempty.
    + destruct (initialized_intro
                  (set_names sn (index_key sn) false new_LocalStorageInterface)
                  m keys) as [Hinit _]; simpl; done.
  - intros _.
    destruct (initialized_intro
                (set_names sn (index_key sn) uc new_LocalStorageInterface)
                (<[index_key sn := Json (JArr [])]> m) []) as [Hinit _];
      simpl; try done.
    + by rewrite lookup_insert_eq.
    + intros _. split; [done|]. by apply Hempty.
Qed.

Lemma fresh_one_initialized : initialized fresh_one.
Proof. by apply (initSync_initialized setup_one ∅). Qed.

Lemma fresh_default_initialized : initialized fresh_default.
Proof. by apply (initSync_initialized setup_default ∅). Qed.

(** ** Reads after writes *)

Lemma last_set_split key calls v :
  last_set key calls = Some v →
  ∃ calls1 calls2,
    calls = (calls1 ++ Set_ key v :: calls2)%list ∧ last_set key calls2 = None.
Proof.
  induction calls as [|c calls IH]; [done|]. simpl.
  destruct (last_set key calls) as [w|] eqn:Hrest.
  - intros [= ->]. destruct (IH eq_refl) as (calls1 & calls2 & -> & Hnone).
    by exists (c :: calls1), calls2.
  - destruct c as [|key' w| | | |]; try done.
    case_bool_decide as Hkk; [|done]. intros [= ->]. subst key'.
    by exists [], calls.
Qed.

(** Calls that are [get]s, or [set]s of other keys, keep the Entry of a key
    and, once it is filled, its cache slot. *)
Lemma slot_kept key calls : ∀ st : LocalStorageInterface * localStorage,
  initialized st → key ≠ keysArrayName st.1 →
  forallb is_set_or_get calls = true → last_set key calls = None →
  (after calls st).2 !! physical_key (storageName st.1) key
    = st.2 !! physical_key (storageName st.1) key ∧
  (∀ v, keyValueCache st.1 !! key = Some v →
        keyValueCache (after calls st).1 !! key = Some v).
Proof.
  induction calls as [|c calls IH]; intros st Hinit Hk Hall Hlast; [done|].
  simpl in Hall. apply andb_true_iff in Hall as [Hc Hall].
  simpl in Hlast. destruct (last_set key calls) eqn:Hrest; [done|].
  rewrite after_cons.
  destruct (perform_initialized c st Hinit) as (Hi1 & Hsn & Hkn & _).
  specialize (IH _ Hi1). rewrite Hsn, Hkn in IH.
  destruct (IH Hk Hall eq_refl) as [IHentry IHslot].
  rewrite IHentry. clear IHentry.
  assert (Hstep : (perform c st).2.2 !! physical_key (storageName st.1) key
                  = st.2 !! physical_key (storageName st.1) key ∧
                  ∀ v, keyValueCache st.1 !! key = Some v →
                       keyValueCache (perform c st).2.1 !! key = Some v);
    [|destruct Hstep as [-> Hs]; split; [done|]; intros v Hv;
      by apply IHslot, Hs].
  clear IH IHslot. rewrite perform_state.
  destruct (initialized_index _ Hinit) as (keys & Hidx & _).
  destruct c as [key'|key' v'| | | |]; try done.
  - destruct Hinit as (_ & _ & Hm).
    destruct (getItemSync_spec st key' (λ H, proj2 (Hm H)))
      as (r & st' & -> & _ & _ & _ & _ & _ & Hmed & Hslots & Hslot & _).
    simpl. rewrite Hmed. split; [done|]. intros v Hv.
    destruct (decide (key' = key)) as [->|Hkk]; [by apply Hslot|].
    rewrite Hslots; done.
  - destruct (decide (key' = keysArrayName st.1)) as [->|Hk'].
    { by rewrite setItemSync_reserved. }
    assert (Hkk : key ≠ key').
    { intros <-. by rewrite bool_decide_eq_true_2 in Hlast. }
    destruct (setItemSync_spec st key' v' keys Hinit Hk' Hidx)
      as (r & st' & -> & _ & _ & _ & _ & _ & Hframe & Hslots & _).
    simpl. split.
    + apply Hframe; [|by rewrite (proj1 Hinit); apply physical_key_ne_index_key].
      intros Heq. by apply physical_key_inj in Heq.
    + intros v Hv. rewrite Hslots; done.
Qed.

(** C1, as stated, fails: what [get] returns is the value passed to [set]
    only as far as the encoding keeps it.  Without the cache, a [NaN] that
    was set comes back as [null] and a date as a string. *)
Lemma get_loses_NaN :
  initialized fresh_default ∧
  last_set "value" [Set_ "value" NaN] = Some NaN ∧
  (setItemSync "value" NaN fresh_default).1 = Normal tt ∧
  (getItemSync "value" (after [Set_ "value" NaN] fresh_default)).1
    = Normal Null ∧
  (getItemSync "value"
     (after [Set_ "value" (Date "2023-05-01T00:00:00.000Z")] fresh_default)).1
    = Normal (Str "2023-05-01T00:00:00.000Z").
Proof. split; [exact fresh_default_initialized|]. split_and!; reflexivity. Qed.

(** C1, amended.  In an initialized namespace, after any sequence of [set]
    and [get] calls, [get] of a key (other than the reserved index key,
    whose [set] is rejected) returns the value passed to the most recent
    [set] of that key whenever that value survives the encoding (as every
    JSON value does, a stored [null] being returned as [null], and as
    [undefined] does), or the instance caches values and that [set]
    completed, the value being one that can be encoded and cloned; without
    the cache [get] returns in every case the decoding of what that [set]
    encoded; and when the key was never set, so that the medium holds no
    Entry for it, [get] returns [undefined]. *)
Theorem get_returns_last_set
  (st : LocalStorageInterface * localStorage) key calls :
  initialized st → key ≠ keysArrayName st.1 →
  forallb is_set_or_get calls = true →
  match last_set key calls with
  | Some v =>
      (JSON_preserves v ∨
       (useCache st.1 = true ∧ encodable v = true ∧ clonable v = true) →
       (getItemSync key (after calls st)).1 = Normal v) ∧
      (useCache st.1 = false →
       ∀ t, JSON_stringify_wrapped v = Normal t →
            (getItemSync key (after calls st)).1 = read_entry (Some t))
  | None =>
      st.2 !! physical_key (storageName st.1) key = None →
      (getItemSync key (after calls st)).1 = Normal Undefined
  end.
Proof.
  intros Hinit Hk Hall.
  destruct (last_set key calls) as [v|] eqn:Hlast.
  - destruct (last_set_split _ _ _ Hlast) as (calls1 & calls2 & -> & Hnone).
    rewrite forallb_app in Hall. apply andb_true_iff in Hall as [_ Hall].
    simpl in Hall. rewrite after_app, after_cons, perform_state.
    destruct (after_initialized calls1 st Hinit) as (Hi1 & Hsn1 & Hkn1 & Hc1).
    set (st1 := after calls1 st) in *.
    destruct (initialized_index _ Hi1) as (keys & Hidx & _).
    rewrite <- Hkn1 in Hk.
    destruct (setItemSync_spec st1 key v keys Hi1 Hk Hidx)
      as (r & st2 & -> & Hi2 & Hsn2 & Hkn2 & Hc2 & _ & _ & _ & Hval & Hok).
    simpl. rewrite <- Hkn2 in Hk.
    destruct (slot_kept key calls2 st2 Hi2 Hk Hall Hnone) as [Hentry Hslot].
    destruct (after_initialized calls2 st2 Hi2) as (Hi3 & Hsn3 & Hkn3 & Hc3).
    set (st3 := after calls2 st2) in *.
    destruct Hi3 as (_ & _ & Hm3).
    destruct (getItemSync_spec st3 key (λ H, proj2 (Hm3 H)))
      as (r' & st4 & -> & _ & _ & _ & _ & _ & _ & _ & _ & _ & Hhit & Hmiss).
    simpl.
    assert (Huncached : useCache st.1 = false →
              ∀ t, JSON_stringify_wrapped v = Normal t →
                   r' = read_entry (Some t)).
    { intros Huc t Ht. rewrite Hmiss by congruence.
      by rewrite Hsn3, Hentry, Hsn2, (Hval t Ht). }
    split; [|done]. intros Hv.
    assert (Hst : encodable v = true ∧ clonable v = true).
    { destruct Hv as [Hv|(_ & ? & ?)]; [by apply JSON_preserves_storable|done]. }
    destruct Hst as [Henc Hcl].
    destruct (useCache st.1) eqn:Huc.
    + rewrite (Hhit v); [by apply structuredClone_clonable|congruence|].
      apply Hslot. apply Hok; [done..|]. congruence.
    + destruct Hv as [(t & Ht & Hr)|(Huc' & _)]; [|congruence].
      by rewrite (Huncached eq_refl t Ht).
  - intros Habs.
    destruct (slot_kept key calls st Hinit Hk Hall Hlast) as [Hentry _].
    destruct (after_initialized calls st Hinit) as ((_ & _ & Hm) & Hsn & _).
    destruct (getItemSync_spec (after calls st) key (λ H, proj2 (Hm H)))
      as (r & st' & -> & _ & _ & _ & _ & _ & _ & _ & _ & Hnone & _).
    simpl. apply Hnone. by rewrite Hsn, Hentry.
Qed.

Lemma get_returns_last_set_witness :
  (getItemSync "value"
     (after [Set_ "value" (Num 4); Get "value"; Set_ "value" Null]
        fresh_default)).1 = Normal Null
  ∧ (getItemSync "value"
       (after [Set_ "value" (Num 4); Set_ "value" NaN] fresh_one)).1
    = Normal NaN
  ∧ (getItemSync "value"
       (after [Set_ "value" (Num 4); Set_ "value" NaN] fresh_default)).1
    = Normal Null
  ∧ (getItemSync "other" (after [Set_ "value" Null] fresh_one)).1
    = Normal Undefined.
Proof.
  split_and!.
  - apply (get_returns_last_set fresh_default "value"
             [Set_ "value" (Num 4); Get "value"; Set_ "value" Null]).
    + exact fresh_default_initialized.
    + discriminate.
    + reflexivity.
    + left. exact (JSON_preserves_of_json JNull).
  - apply (get_returns_last_set fresh_one "value"
             [Set_ "value" (Num 4); Set_ "value" NaN]).
    + exact fresh_one_initialized.
    + discriminate.
    + reflexivity.
    + right. split_and!; reflexivity.
  - apply (proj2 (get_returns_last_set fresh_default "value"
                    [Set_ "value" (Num 4); Set_ "value" NaN]
                    fresh_default_initialized ltac:(discriminate) eq_refl)
             eq_refl (Json (JObj [("value", JNull)])) eq_refl).
  - apply (get_returns_last_set fresh_one "other" [Set_ "value" Null]).
    + exact fresh_one_initialized.
    + discriminate.
    + reflexivity.
    + reflexivity.
Defined.

(** ** The mirror *)

Lemma persisted_value_read (i : LocalStorageInterface) (m : localStorage)
  key t v :
  m !! physical_key (storageName i) key = Some t →
  read_entry (Some t) = Normal v →
  persisted_value i m key = Some v.
Proof.
  unfold persisted_value. intros -> Hr. destruct t as [d|s]; [|done].
  simpl in Hr. by rewrite Hr.
Qed.

(** The Entry part of [set] keeps the mirror following the medium, when the
    value can be cloned. *)
Lemma store_entry_tracks (st : LocalStorageInterface * localStorage) key v :
  mirror_tracks st → clonable v = true →
  mirror_tracks (store_entry key v st).2.
Proof.
  destruct st as [i m]. intros (Hn & Hc & Hidx & Hval) Hcl.
  unfold index_mirrored in Hidx. simpl in Hn, Hc, Hidx.
  unfold store_entry. simpl.
  destruct (JSON_stringify_wrapped v) as [t|e] eqn:Ht; [|done].
  rewrite Hc, (structuredClone_clonable v Hcl). simpl.
  assert (Hne : physical_key (storageName i) key ≠ keysArrayName i).
  { rewrite Hn. apply physical_key_ne_index_key. }
  unfold mirror_tracks, index_mirrored. simpl. split_and!; try done.
  - by rewrite lookup_insert_ne.
  - intros key' w Hw. simpl in *.
    destruct (decide (key' = key)) as [->|Hkk].
    + rewrite lookup_insert_eq in Hw. injection Hw as <-.
      exists t. rewrite lookup_insert_eq. split; [done|by left].
    + rewrite lookup_insert_ne in Hw by done.
      destruct (Hval key' w Hw) as (t' & Ht' & Hor). simpl in Ht'.
      exists t'. split; [|done]. rewrite lookup_insert_ne; [done|].
      intros Heq. by apply physical_key_inj in Heq.
Qed.

(** Every call keeps the mirror following the medium, provided a value that
    is set can be cloned. *)
Lemma perform_tracks (c : call) (st : LocalStorageInterface * localStorage) :
  initialized st → mirror_tracks st →
  (∀ key v, c = Set_ key v → clonable v = true) →
  mirror_tracks (perform c st).2.
Proof.
  destruct st as [i m]. intros Hinit Htr Hcl. rewrite perform_state.
  destruct (initialized_index _ Hinit) as (keys & Hkeys & _).
  pose proof Htr as (Hn & Hc & Hidx & Hval).
  unfold index_mirrored in Hidx. simpl in Hn, Hc, Hidx.
  assert (Hne : ∀ k, physical_key (storageName i) k ≠ keysArrayName i).
  { intros k. rewrite Hn. apply physical_key_ne_index_key. }
  assert (Hri : read_index i m = Normal (keysArrayCache i)).
  { unfold read_index. by rewrite Hc. }
  destruct c as [key|key v|key| | |index].
  - rewrite getItemSync_run, Hc.
    destruct (keyValueCache i !! key) as [w|] eqn:Hw; [done|].
    destruct (m !! physical_key (storageName i) key) as [[d|]|] eqn:Hp;
      try done.
    destruct (destructure_value d) as [w|] eqn:Hd; [|done].
    unfold mirror_tracks, index_mirrored. simpl. split_and!; try done.
    intros key' u Hu. simpl in *.
    destruct (decide (key' = key)) as [->|Hkk].
    + rewrite lookup_insert_eq in Hu. injection Hu as <-.
      exists (Json d). split; [done|by right].
    + rewrite lookup_insert_ne in Hu by done. by apply Hval.
  - destruct (decide (key = keysArrayName i)) as [->|Hk].
    { by rewrite (setItemSync_reserved (i, m)). }
    rewrite setItemSync_run, Hri by done.
    destruct (keysArray_includes (keysArrayCache i) key) as [[|]|e]; [| |done].
    { apply store_entry_tracks; [done|by eapply Hcl]. }
    destruct (keysArray_push (keysArrayCache i) key) as [d'|e]; [|done].
    apply store_entry_tracks; [|by eapply Hcl].
    rewrite Hc. unfold mirror_tracks, index_mirrored. simpl.
    split_and!; try done.
    + by rewrite lookup_insert_eq.
    + intros key' w Hw. simpl in *.
      destruct (Hval key' w Hw) as (t' & Ht' & Hor). simpl in Ht'.
      exists t'. split; [|done]. by rewrite lookup_insert_ne.
  - rewrite removeItemSync_run, Hri.
    destruct (keysArray_filter (keysArrayCache i) _) as [d'|e]; [|done].
    rewrite Hc. unfold mirror_tracks, index_mirrored. simpl.
    split_and!; try done.
    + rewrite lookup_delete_ne by done. by rewrite lookup_insert_eq.
    + intros key' w Hw. simpl in *.
      destruct (decide (key' = key)) as [->|Hkk].
      { by rewrite lookup_delete_eq in Hw. }
      rewrite lookup_delete_ne in Hw by done.
      destruct (Hval key' w Hw) as (t' & Ht' & Hor). simpl in Ht'.
      exists t'. split; [|done].
      rewrite lookup_delete_ne, lookup_insert_ne; [done..|].
      intros Heq. by apply physical_key_inj in Heq.
  - rewrite (clearSync_typed i m keys Hkeys).
    rewrite Hc. unfold mirror_tracks, index_mirrored. simpl.
    split_and!; try done. by rewrite lookup_insert_eq.
  - by rewrite sizeSync_run.
  - by rewrite keySync_run.
Qed.

Lemma after_tracks calls : ∀ st : LocalStorageInterface * localStorage,
  initialized st → mirror_tracks st →
  (∀ key v, Set_ key v ∈ calls → clonable v = true) →
  mirror_tracks (after calls st).
Proof.
  induction calls as [|c calls IH]; intros st Hinit Htr Hcl; [done|].
  rewrite after_cons. apply IH.
  - by apply perform_initialized.
  - apply perform_tracks; [done..|]. intros key v ->. apply (Hcl key v).
    apply list_elem_of_here.
  - intros key v Hin. apply (Hcl key v). by apply list_elem_of_further.
Qed.

(** A new instance whose initialization with the cache reported no error has
    loaded the document the index record holds, or created the empty index;
    its mirror follows the medium. *)
Lemma initSync_tracks (setup : Setup) (m : localStorage) :
  default defaultUseCache (setup_useCache setup) = true →
  (initSync setup (new_LocalStorageInterface, m)).1 = Normal None →
  mirror_tracks (initSync setup (new_LocalStorageInterface, m)).2.
Proof.
  intros Huc. rewrite initSync_run. cbv zeta. rewrite Huc.
  destruct (m !! index_key _) as [[d|]|] eqn:Hm; [| done |]; intros _;
    unfold mirror_tracks, index_mirrored, values_track; simpl;
    split_and!; try done.
  by rewrite lookup_insert_eq.
Qed.

(** C2, as stated, fails: with the cache enabled, on a medium that works, a
    completed [set] of [NaN] leaves [NaN] in the value cache while the
    persisted Entry decodes to [null]. *)
Lemma mirror_diverges_on_NaN :
  useCache (after [Set_ "value" NaN] fresh_one).1 = true ∧
  (perform (Set_ "value" NaN) fresh_one).1 = Normal AVoid ∧
  keyValueCache (after [Set_ "value" NaN] fresh_one).1 !! "value" = Some NaN ∧
  persisted_value (after [Set_ "value" NaN] fresh_one).1
    (after [Set_ "value" NaN] fresh_one).2 "value" = Some Null ∧
  ¬ mirror_agrees (after [Set_ "value" NaN] fresh_one).
Proof.
  assert (Hslot : keyValueCache (after [Set_ "value" NaN] fresh_one).1
                    !! "value" = Some NaN) by reflexivity.
  assert (Hentry : persisted_value (after [Set_ "value" NaN] fresh_one).1
                     (after [Set_ "value" NaN] fresh_one).2 "value" = Some Null)
    by reflexivity.
  split_and!; try done.
  intros [_ Hval]. apply Hval in Hslot. congruence.
Qed.

(** [initSync] resets neither cache: an instance that is initialized a
    second time, under another name, still answers from the caches it
    filled under the first name. *)
Example reinitialized_instance_keeps_caches :
  storageName (initSync setup_two (after [Set_ "value" (Num 4)] fresh_one)).2.1
    = "storageTwo" ∧
  persisted_keys (initSync setup_two (after [Set_ "value" (Num 4)] fresh_one)).2.1
    (initSync setup_two (after [Set_ "value" (Num 4)] fresh_one)).2.2 = Some [] ∧
  (sizeSync (initSync setup_two (after [Set_ "value" (Num 4)] fresh_one)).2).1
    = Normal (Num 1) ∧
  (getItemSync "value"
     (initSync setup_two (after [Set_ "value" (Num 4)] fresh_one)).2).1
    = Normal (Num 4).
Proof. split_and!; reflexivity. Qed.

(** [clearSync] stops at an element of the cached index that cannot be
    converted to a string: the Entries named before it are gone, and the
    value cache still holds their values. *)
Example clear_stops_at_unprintable_element :
  let m : localStorage :=
    <["__storageOne-keys-array" :=
        Json (JArr [JStr "value"; JObj [("toString", JNull)]])]>
      (<["storageOne-value" := Json (JObj [("value", JNum 4)])]> ∅) in
  let st := (getItemSync "value"
               (initSync setup_one (new_LocalStorageInterface, m)).2).2 in
  (initSync setup_one (new_LocalStorageInterface, m)).1 = Normal None ∧
  (clearSync st).1 = Throw TypeError ∧
  (clearSync st).2.2 !! "storageOne-value" = None ∧
  keyValueCache (clearSync st).2.1 !! "value" = Some (Num 4).
Proof. split_and!; reflexivity. Qed.

(** C2, amended.  For a new instance created with caching enabled, on a
    medium whose calls do not throw and whose index record for the
    namespace is absent or an array of strings: [initSync] reports no
    error, and right after it and after every further call ([get], [set],
    [remove], [clear], [size], [keyAt]) in any sequence whose [set] values
    can be cloned, the cached key index is the persisted index record; the
    Entry of every value in the value cache is the encoding of that value
    or decodes to it; and so every cached value that survives the encoding
    is the decoded persisted Entry of its key. *)
Theorem mirror_tracks_after_calls (setup : Setup) (m : localStorage) calls :
  default defaultUseCache (setup_useCache setup) = true →
  index_absent_or_decodable (default defaultStorageName (name setup)) m →
  (∀ key v, Set_ key v ∈ calls → clonable v = true) →
  (initSync setup (new_LocalStorageInterface, m)).1 = Normal None ∧
  mirror_tracks (after calls (initSync setup (new_LocalStorageInterface, m)).2) ∧
  (∀ key v,
     keyValueCache (after calls (initSync setup (new_LocalStorageInterface, m)).2).1
       !! key = Some v →
     JSON_preserves v →
     persisted_value
       (after calls (initSync setup (new_LocalStorageInterface, m)).2).1
       (after calls (initSync setup (new_LocalStorageInterface, m)).2).2 key
     = Some v).
Proof.
  intros Huc Hdec Hcl.
  destruct (initSync_initialized setup m Hdec) as (Hok & Hinit & _).
  pose proof (after_tracks calls _ Hinit (initSync_tracks setup m Huc Hok) Hcl)
    as Htr.
  split_and!; [done..|]. intros key v Hv (t & Ht & Hr).
  destruct Htr as (_ & _ & _ & Hval).
  destruct (Hval key v Hv) as (t' & Ht' & [Henc|Hdec']).
  - rewrite Ht in Henc. injection Henc as <-.
    by apply (persisted_value_read _ _ _ t).
  - by apply (persisted_value_read _ _ _ t').
Qed.

Lemma mirror_tracks_after_calls_witness :
  mirror_tracks
    (after [Set_ "value" NaN; Get "value"; Set_ "other" Undefined;
            Remove "value"; Size; KeyAt 0; Set_ "big" (BigInt 7); Clear;
            Set_ "last" (Num 4)]
       (initSync setup_one (new_LocalStorageInterface, ∅)).2)
  ∧ persisted_value
      (after [Set_ "value" (Num 4)]
         (initSync setup_one (new_LocalStorageInterface, ∅)).2).1
      (after [Set_ "value" (Num 4)]
         (initSync setup_one (new_LocalStorageInterface, ∅)).2).2 "value"
    = Some (Num 4).
Proof.
  split.
  - apply (mirror_tracks_after_calls setup_one ∅); try reflexivity.
    intros key v Hin. rewrite !elem_of_cons, elem_of_nil in Hin.
    destruct Hin as [Hin|[Hin|[Hin|[Hin|[Hin|[Hin|[Hin|[Hin|[Hin|[]]]]]]]]]];
      try discriminate; by injection Hin as -> ->.
  - apply (mirror_tracks_after_calls setup_one ∅ [Set_ "value" (Num 4)]);
      try reflexivity.
    + intros key v Hin. rewrite elem_of_cons, elem_of_nil in Hin.
      destruct Hin as [Hin|[]]. by injection Hin as -> ->.
    + exact (JSON_preserves_of_json (JNum 4)).
Defined.

(** ** Namespaces sharing the medium *)

Lemma store_entry_footprint (st : LocalStorageInterface * localStorage)
  key v p :
  p ≠ physical_key (storageName st.1) key →
  (store_entry key v st).2.2 !! p = st.2 !! p.
Proof.
  intros Hp. unfold store_entry.
  destruct (JSON_stringify_wrapped v) as [t|e]; [|done].
  destruct (useCache st.1); [destruct (structuredClone v)|]; simpl;
    by rewrite lookup_insert_ne.
Qed.

(** A call touches only physical keys of its own namespace, whatever the
    instance holds as its index. *)
Lemma perform_footprint (c : call) (a : LocalStorageInterface)
  (m : localStorage) p :
  keysArrayName a = index_key (storageName a) →
  ¬ owns (storageName a) p →
  (perform c (a, m)).2.2 !! p = m !! p.
Proof.
  intros Hn Hp. rewrite perform_state.
  assert (Hkn : p ≠ keysArrayName a).
  { intros ->. apply Hp. left. done. }
  assert (Hpk : ∀ key, p ≠ physical_key (storageName a) key).
  { intros key ->. apply Hp. right. eauto. }
  destruct c as [key|key v|key| | |index].
  - rewrite getItemSync_run.
    destruct (if useCache a then keyValueCache a !! key else None); [done|].
    destruct (m !! physical_key (storageName a) key) as [[d|]|]; try done.
    by destruct (destructure_value d).
  - destruct (decide (key = keysArrayName a)) as [->|Hk].
    { by rewrite (setItemSync_reserved (a, m)). }
    rewrite setItemSync_run by done.
    destruct (read_index a m) as [keysArray|e]; [|done].
    destruct (keysArray_includes keysArray key) as [[|]|e]; [| |done].
    { by apply store_entry_footprint. }
    destruct (keysArray_push keysArray key) as [keysArray'|e]; [|done].
    rewrite store_entry_footprint; simpl.
    + by rewrite lookup_insert_ne.
    + by destruct (useCache a).
  - rewrite removeItemSync_run.
    destruct (read_index a m) as [keysArray|e]; [|done].
    destruct (keysArray_filter keysArray _) as [updated|e]; [|done]. simpl.
    by rewrite lookup_delete_ne, lookup_insert_ne.
  - rewrite clearSync_run.
    destruct (read_index a m) as [[| | | |items|]|e]; try done. simpl.
    pose proof (remove_entries_footprint (storageName a) items p m Hpk) as Hrm.
    destruct (remove_entries (storageName a) items m) as [[[]|e] m']; [|done].
    simpl in *. by rewrite lookup_insert_ne.
  - by rewrite sizeSync_run.
  - by rewrite keySync_run.
Qed.

(** [initSync] touches at most the index key of the namespace it names. *)
Lemma initSync_footprint (setup : Setup) (a : LocalStorageInterface)
  (m : localStorage) p :
  p ≠ index_key (default defaultStorageName (name setup)) →
  (initSync setup (a, m)).2.2 !! p = m !! p.
Proof.
  intros Hp. rewrite initSync_run. cbv zeta.
  destruct (m !! index_key _) as [[d|]|]; simpl.
  - by destruct (default defaultUseCache _).
  - by destruct (default defaultUseCache _).
  - by rewrite lookup_insert_ne.
Qed.

(** What [size] answers depends on the instance and on its index record
    only. *)
Lemma sizeSync_ext (b : LocalStorageInterface) (m m' : localStorage) :
  m' !! keysArrayName b = m !! keysArrayName b →
  (sizeSync (b, m')).1 = (sizeSync (b, m)).1.
Proof.
  intros H. rewrite !sizeSync_run. simpl. unfold read_index. by rewrite H.
Qed.

(** Distinct plain names are separated. *)
Lemma prefix_cons (c d : ascii) (s t : string) :
  String.prefix (String c s) (String d t) = true →
  c = d ∧ String.prefix s t = true.
Proof. simpl. by destruct (ascii_dec c d). Qed.

Lemma no_dash_cons (c : ascii) (s : string) :
  no_dash (String c s) = true → c ≠ "-"%char ∧ no_dash s = true.
Proof.
  simpl. intros [Hc Hs]%andb_true_iff. split; [|done].
  intros ->. by rewrite Ascii.eqb_refl in Hc.
Qed.

Lemma no_dash_prefix a : ∀ b,
  no_dash a = true → no_dash b = true →
  String.prefix (a +:+ "-") (b +:+ "-") = true → a = b.
Proof.
  induction a as [|c a IH]; intros [|d b] Ha Hb Hp.
  - done.
  - rewrite append_nil, append_cons in Hp.
    apply prefix_cons in Hp as [<- _]. by apply no_dash_cons in Hb as [? _].
  - rewrite append_cons, append_nil in Hp.
    apply prefix_cons in Hp as [-> _]. by apply no_dash_cons in Ha as [? _].
  - rewrite !append_cons in Hp. apply prefix_cons in Hp as [-> Hp].
    apply no_dash_cons in Ha as [_ Ha]. apply no_dash_cons in Hb as [_ Hb].
    f_equal. by apply IH.
Qed.

Lemma plain_name_index_key a b :
  plain_name a = true → String.prefix (a +:+ "-") (index_key b) = false.
Proof.
  unfold plain_name. intros [_ Hu%negb_true_iff]%andb_true_iff.
  destruct a as [|c a]; [done|].
  destruct (String.prefix (String c a +:+ "-") (index_key b)) eqn:Hp; [|done].
  unfold index_key in Hp. rewrite !append_cons in Hp.
  apply prefix_cons in Hp as [-> _]. by destruct a.
Qed.

Lemma plain_names_separated a b :
  a ≠ b → plain_name a = true → plain_name b = true → separated a b = true.
Proof.
  intros Hne Ha Hb. unfold separated.
  rewrite (plain_name_index_key a b Ha), (plain_name_index_key b a Hb).
  pose proof Ha as [Hda _]%andb_true_iff.
  pose proof Hb as [Hdb _]%andb_true_iff.
  destruct (String.prefix (a +:+ "-") (b +:+ "-")) eqn:H1.
  { by apply no_dash_prefix in H1. }
  destruct (String.prefix (b +:+ "-") (a +:+ "-")) eqn:H2.
  { by apply no_dash_prefix in H2. }
  done.
Qed.

(** C3, as stated, fails: names that differ do not keep physical keys apart.
    Namespace ["a"] lists ["b-x"], whose Entry key ["a-b-x"] is the Entry key
    of ["x"] in namespace ["a-b"]: [clear] on ["a"] removes that Entry of
    ["a-b"].  And [remove("keys-array")] on namespace ["__b"] removes the
    index record of namespace ["b"], after which [size] on ["b"] throws
    where it answered 1. *)
Lemma clear_reaches_other_namespace :
  storageName collide_a.1 ≠ storageName collide_a_b.1 ∧
  persisted_keys collide_a_b.1 collide_a_b.2 = Some ["x"] ∧
  collide_a_b.2 !! physical_key (storageName collide_a_b.1) "x"
    = Some (Json (JObj [("value", JNum 1)])) ∧
  JSON_stringify_wrapped (Num 1) = Normal (Json (JObj [("value", JNum 1)])) ∧
  (clearSync (collide_a.1, collide_a_b.2)).1 = Normal tt ∧
  (clearSync (collide_a.1, collide_a_b.2)).2.2
    !! physical_key (storageName collide_a_b.1) "x" = None ∧
  storageName collide__b.1 ≠ storageName collide_b.1 ∧
  (sizeSync (collide_b.1, collide__b.2)).1 = Normal (Num 1) ∧
  (sizeSync (collide_b.1,
             (removeItemSync "keys-array" collide__b).2.2)).1
    = Throw (Error "storage-facade: LocalStorageInterface: '__b-keys-array' not found.").
Proof. split_and!; by vm_compute. Qed.

(** C3, amended.  For two namespaces whose names are separated (neither
    ["A-"] is a prefix of ["B-"] or of the index key of [B], nor the other
    way round, as for distinct names without ['-'] that do not start with
    ['_']), no call on [A] and no initialization under the name of [A]
    changes any physical key of [B], index record or Entry, and [size] on
    [B] answers the same before and after. *)
Theorem separated_namespaces_isolated
  (a b : LocalStorageInterface) (m : localStorage) (c : call) (setup : Setup) :
  keysArrayName a = index_key (storageName a) →
  default defaultStorageName (name setup) = storageName a →
  separated (storageName a) (storageName b) = true →
  keysArrayName b = index_key (storageName b) →
  (∀ p, owns (storageName b) p → (perform c (a, m)).2.2 !! p = m !! p) ∧
  (sizeSync (b, (perform c (a, m)).2.2)).1 = (sizeSync (b, m)).1 ∧
  (∀ a0 p, owns (storageName b) p → (initSync setup (a0, m)).2.2 !! p = m !! p) ∧
  (∀ a0, (sizeSync (b, (initSync setup (a0, m)).2.2)).1 = (sizeSync (b, m)).1).
Proof.
  intros Ha Hsetup Hsep Hb.
  assert (Hown : ∀ p, owns (storageName b) p → ¬ owns (storageName a) p).
  { intros p Hpb Hpa. by apply (separated_owns _ _ p Hsep Hpa). }
  assert (Hframe : ∀ p, owns (storageName b) p →
                        (perform c (a, m)).2.2 !! p = m !! p).
  { intros p Hp. apply perform_footprint; [done|]. by apply Hown. }
  assert (Hinit : ∀ a0 p, owns (storageName b) p →
                          (initSync setup (a0, m)).2.2 !! p = m !! p).
  { intros a0 p Hp. apply initSync_footprint. rewrite Hsetup.
    intros ->. apply (Hown _ Hp). by left. }
  split_and!; try done.
  - apply sizeSync_ext. apply Hframe. left. done.
  - intros a0. apply sizeSync_ext. apply Hinit. left. done.
Qed.

Lemma separated_namespaces_isolated_witness :
  let a := fresh_one.1 in
  let st_b := (setItemSync "value" (Num 11)
                 (initSync setup_two (new_LocalStorageInterface, fresh_one.2)).2).2 in
  let m' := (perform Clear (a, st_b.2)).2.2 in
  (∀ p, owns "storageTwo" p → m' !! p = st_b.2 !! p) ∧
  (sizeSync (st_b.1, m')).1 = (sizeSync st_b).1.
Proof.
  intros a st_b m'.
  destruct (separated_namespaces_isolated a st_b.1 st_b.2 Clear setup_one)
    as (H1 & H2 & _); try reflexivity.
  split; [exact H1 | exact H2].
Defined.

(** ** The reserved key *)

(** Whatever the medium does, [initSync] leaves the instance with the names
    computed from the setup. *)
Lemma initSync_names {M} `{!Storage M} (setup : Setup)
  (st : LocalStorageInterface * M) :
  storageName (initSync setup st).2.1 = default defaultStorageName (name setup) ∧
  keysArrayName (initSync setup st).2.1
    = index_key (default defaultStorageName (name setup)) ∧
  useCache (initSync setup st).2.1
    = default defaultUseCache (setup_useCache setup).
Proof.
  destruct st as [i m]. unfold initSync. step_js. simpl.
  destruct (getItem _ m) as [[[t|]|e] m1]; simpl; [| |done].
  - destruct (default defaultUseCache _); simpl; [|done].
    by destruct (JSON_parse t) as [d|].
  - by destruct (setItem _ _ m1) as [[[]|e] m2].
Qed.

(** C4. On any medium and for any instance, once [initSync] has run for a
    setup, [set] with the computed index key of that namespace throws the
    reserved-key error and leaves everything as it was: the medium (index
    record and Entries) and the instance (both mirrors) are those of before
    the call. *)
Theorem reserved_key_rejected {M} `{!Storage M} (setup : Setup)
  (i : LocalStorageInterface) (m : M) (v : value) :
  setItemSync (index_key (default defaultStorageName (name setup))) v
    (initSync setup (i, m)).2
  = (Throw (Error ("storage-facade: " +:+ interfaceName +:+ ":" +:+ "key '"
                   +:+ index_key (default defaultStorageName (name setup))
                   +:+ "' cannot be used.")),
     (initSync setup (i, m)).2).
Proof.
  destruct (initSync_names setup (i, m)) as (_ & <- & _).
  unfold setItemSync. step_js. by rewrite bool_decide_eq_true_2.
Qed.

Example storageOne_index_key_reserved :
  setItemSync "__storageOne-keys-array" (Str "x") fresh_one
  = (Throw (Error "storage-facade: LocalStorageInterface:key '__storageOne-keys-array' cannot be used."),
     fresh_one).
Proof. reflexivity. Qed.

(** ** Clearing *)

(** A key that is listed in the index or has no Entry stays so under every
    call. *)
Lemma listed_or_absent_perform (c : call)
  (st : LocalStorageInterface * localStorage) key :
  initialized st → listed_or_absent st key →
  listed_or_absent (perform c st).2 key.
Proof.
  intros Hinit Hla. unfold listed_or_absent in *.
  destruct (perform_initialized c st Hinit) as (_ & Hsn & _). rewrite Hsn.
  clear Hsn. rewrite perform_state.
  destruct (initialized_index _ Hinit) as (keys & Hidx & _).
  rewrite Hidx in Hla.
  assert (Hne : ∀ k, physical_key (storageName st.1) k ≠ keysArrayName st.1).
  { intros k. rewrite (proj1 Hinit). apply physical_key_ne_index_key. }
  assert (Hinj : ∀ k, k ≠ key →
            physical_key (storageName st.1) key ≠ physical_key (storageName st.1) k).
  { intros k Hk Heq. by apply physical_key_inj in Heq. }
  destruct c as [key'|key' v|key'| | |index].
  - destruct Hinit as (_ & _ & Hm).
    destruct (getItemSync_index_of st key' (λ H, proj2 (Hm H))) as [Hi Hmed].
    by rewrite Hi, Hmed, Hidx.
  - destruct (decide (key' = keysArrayName st.1)) as [->|Hk].
    { rewrite setItemSync_reserved. simpl. by rewrite Hidx. }
    destruct (setItemSync_spec st key' v keys Hinit Hk Hidx)
      as (r & st' & -> & _ & _ & _ & _ & Hidx' & Hframe & _).
    simpl. rewrite Hidx'.
    destruct (decide (key' = key)) as [->|Hkk].
    + left. case_bool_decide; [done|]. apply elem_of_app. right.
      by apply list_elem_of_singleton.
    + destruct Hla as [Hin|Habs].
      * left. case_bool_decide; [done|]. apply elem_of_app. by left.
      * right. rewrite Hframe; [done|by apply Hinj|done].
  - destruct (removeItemSync_spec st key' keys Hinit Hidx)
      as (st' & -> & _ & _ & _ & _ & Hidx' & Hval & Hframe & _).
    simpl. rewrite Hidx'.
    destruct (decide (key' = key)) as [->|Hkk]; [by right|].
    destruct Hla as [Hin|Habs].
    + left. apply list_elem_of_filter. split; [congruence|done].
    + right. rewrite Hframe; [done|by apply Hinj|done].
  - destruct (clearSync_spec st keys Hinit Hidx)
      as (st' & -> & _ & _ & _ & _ & Hidx' & _ & Hgone & Hframe).
    simpl. rewrite Hidx'.
    right. destruct (decide (key ∈ keys)) as [Hin|Hnin]; [by apply Hgone|].
    destruct Hla as [Hin|Habs]; [done|].
    rewrite Hframe; [done| |done].
    intros (k & Heq & Hk)%list_elem_of_fmap.
    apply physical_key_inj in Heq. by subst.
  - rewrite (sizeSync_typed _ _ Hidx). simpl. by rewrite Hidx.
  - rewrite (keySync_typed _ _ _ Hidx). simpl. by rewrite Hidx.
Qed.

Lemma listed_or_absent_after calls :
  ∀ (st : LocalStorageInterface * localStorage) key,
  initialized st → listed_or_absent st key →
  listed_or_absent (after calls st) key.
Proof.
  induction calls as [|c calls IH]; intros st key Hinit Hla; [done|].
  rewrite after_cons. apply IH.
  - by apply perform_initialized.
  - by apply listed_or_absent_perform.
Qed.

(** A key that was set is listed, from then on, or has lost its Entry. *)
Lemma set_listed_or_absent calls (st : LocalStorageInterface * localStorage)
  key v :
  initialized st → key ≠ keysArrayName st.1 → Set_ key v ∈ calls →
  listed_or_absent (after calls st) key.
Proof.
  intros Hinit Hk (calls1 & calls2 & ->)%list_elem_of_split.
  rewrite after_app, after_cons.
  destruct (after_initialized calls1 st Hinit) as (Hi1 & Hsn & Hkn & _).
  apply listed_or_absent_after; [by apply perform_initialized|].
  destruct (initialized_index _ Hi1) as (keys & Hidx & _).
  rewrite <- Hkn in Hk. rewrite perform_state.
  destruct (setItemSync_spec _ key v keys Hi1 Hk Hidx)
    as (r & st' & -> & _ & Hsn' & _ & _ & Hidx' & _).
  left. simpl. rewrite Hidx'.
  case_bool_decide; [done|]. apply elem_of_app. right.
  by apply list_elem_of_singleton.
Qed.

(** C5. In an initialized namespace, after any sequence of calls, [clear]
    completes; after it [size] is 0, the Entry of every key listed in the
    index before the [clear] is absent from the medium, and [get] of every
    key that was set during the sequence (other than the reserved index
    key, whose [set] is rejected) returns [undefined], its Entry being
    absent. *)
Theorem clear_empties_namespace
  (st0 : LocalStorageInterface * localStorage) calls :
  initialized st0 →
  (clearSync (after calls st0)).1 = Normal tt ∧
  (sizeSync (clearSync (after calls st0)).2).1 = Normal (Num 0) ∧
  (∀ keys key, index_of (after calls st0) = Some keys → key ∈ keys →
     (clearSync (after calls st0)).2.2
       !! physical_key (storageName st0.1) key = None) ∧
  (∀ key v, Set_ key v ∈ calls → key ≠ keysArrayName st0.1 →
     (getItemSync key (clearSync (after calls st0)).2).1 = Normal Undefined ∧
     (clearSync (after calls st0)).2.2
       !! physical_key (storageName st0.1) key = None).
Proof.
  intros Hinit0.
  destruct (after_initialized calls st0 Hinit0) as (Hinit & Hsn & Hkn & _).
  destruct (initialized_index _ Hinit) as (keys & Hidx & _).
  destruct (clearSync_spec _ keys Hinit Hidx)
    as (st' & Hrun & Hinit' & Hsn' & _ & _ & Hidx' & _ & Hgone & Hframe).
  rewrite Hrun. simpl. rewrite Hsn in Hgone, Hframe.
  split_and!; [done|by rewrite (sizeSync_typed _ _ Hidx')|..].
  - intros keys' key Hk Hin. rewrite Hidx in Hk. injection Hk as <-.
    by apply Hgone.
  - intros key v Hset Hk.
    assert (Habs : st'.2 !! physical_key (storageName st0.1) key = None).
    { pose proof (set_listed_or_absent calls st0 key v Hinit0 Hk Hset) as Hla.
      unfold listed_or_absent in Hla. rewrite Hidx, Hsn in Hla.
      destruct (decide (key ∈ keys)) as [Hin|Hnin]; [by apply Hgone|].
      destruct Hla as [Hin|Habs]; [done|].
      rewrite Hframe; [done| |].
      - intros (k & Heq & Hin)%list_elem_of_fmap.
        apply physical_key_inj in Heq. by subst.
      - rewrite Hkn, (proj1 Hinit0). apply physical_key_ne_index_key. }
    split; [|done].
    destruct Hinit' as (_ & _ & Hm').
    destruct (getItemSync_spec st' key (λ H, proj2 (Hm' H)))
      as (r & st'' & -> & _ & _ & _ & _ & _ & _ & _ & _ & Hnone & _).
    simpl. apply Hnone. by rewrite Hsn', Hsn.
Qed.

Lemma clear_empties_namespace_witness :
  let calls := [Set_ "value" (Num 4); Set_ "other" Null;
                Get "value"; Remove "other"] in
  (sizeSync (clearSync (after calls fresh_one)).2).1 = Normal (Num 0) ∧
  (getItemSync "value" (clearSync (after calls fresh_one)).2).1
    = Normal Undefined ∧
  (clearSync (after calls fresh_one)).2.2 !! "storageOne-value" = None.
Proof.
  intros calls.
  destruct (clear_empties_namespace fresh_one calls fresh_one_initialized)
    as (_ & Hsize & _ & Hset).
  destruct (Hset "value" (Num 4)) as [Hget Habs].
  - apply list_elem_of_here.
  - discriminate.
  - split_and!; [exact Hsize | exact Hget | exact Habs].
Defined.

(** ** The order of the index *)

Lemma index_of_perform (c : call) (st : LocalStorageInterface * localStorage)
  keys :
  initialized st → index_of st = Some keys →
  index_of (perform c st).2 = Some (order_step (keysArrayName st.1) keys c).
Proof.
  intros Hinit Hidx. rewrite perform_state.
  destruct c as [key|key v|key| | |index]; simpl.
  - destruct Hinit as (_ & _ & Hm).
    destruct (getItemSync_index_of st key (λ H, proj2 (Hm H))) as [-> _]. done.
  - unfold insert_key. case_bool_decide as Hk.
    + subst key. by rewrite setItemSync_reserved.
    + by destruct (setItemSync_spec st key v keys Hinit Hk Hidx)
        as (r & st' & -> & _ & _ & _ & _ & ? & _).
  - by destruct (removeItemSync_spec st key keys Hinit Hidx)
      as (st' & -> & _ & _ & _ & _ & ? & _).
  - by destruct (clearSync_spec st keys Hinit Hidx)
      as (st' & -> & _ & _ & _ & _ & ? & _).
  - by rewrite (sizeSync_typed _ _ Hidx).
  - by rewrite (keySync_typed _ _ _ Hidx).
Qed.

Lemma index_of_after calls : ∀ (st : LocalStorageInterface * localStorage) keys,
  initialized st → index_of st = Some keys →
  index_of (after calls st)
  = Some (insertion_order (keysArrayName st.1) calls keys).
Proof.
  induction calls as [|c calls IH]; intros st keys Hinit Hidx; [done|].
  rewrite after_cons.
  destruct (perform_initialized c st Hinit) as (Hi & _ & Hkn & _).
  rewrite (IH _ _ Hi (index_of_perform c st keys Hinit Hidx)).
  by rewrite Hkn.
Qed.

Lemma order_step_NoDup reserved (c : call) order :
  NoDup order → NoDup (order_step reserved order c).
Proof.
  intros Hnd. destruct c; simpl; try done.
  - unfold insert_key. repeat case_bool_decide; try done.
    apply NoDup_app. split_and!; [done| |apply NoDup_singleton].
    intros k Hk ->%list_elem_of_singleton. done.
  - by apply NoDup_filter.
  - apply NoDup_nil_2.
Qed.

Lemma insertion_order_NoDup reserved calls : ∀ order,
  NoDup order → NoDup (insertion_order reserved calls order).
Proof.
  induction calls as [|c calls IH]; intros order Hnd; [done|].
  apply IH. by apply order_step_NoDup.
Qed.

(** A [set] moves no key: whatever was at a position stays there, and a new
    key goes to the end. *)
Lemma insert_key_position reserved key order (n : nat) k :
  order !! n = Some k → insert_key reserved key order !! n = Some k.
Proof.
  intros Hn. unfold insert_key. repeat case_bool_decide; try done.
  by apply lookup_app_l_Some.
Qed.

Lemma insert_key_new reserved key order :
  key ≠ reserved → key ∉ order →
  insert_key reserved key order !! length order = Some key.
Proof.
  intros Hr Hnin. unfold insert_key.
  rewrite !bool_decide_eq_false_2 by done.
  by rewrite lookup_app_r, Nat.sub_diag.
Qed.

(** A [remove] keeps the other keys in their relative order. *)
Lemma remove_sublist (key : string) (order : list string) :
  sublist (filter (λ savedKey, savedKey ≠ key) order) order.
Proof. apply sublist_filter. Qed.

(** C6. In an initialized namespace, after any sequence of calls the index
    is the insertion order of the keys: a [set] of a key already present
    leaves the index as it is, [size] is the number of keys in the order,
    [keyAt(i)] returns the [i]-th key of the order for [0 <= i < size], and
    [keyAt] outside that range returns [undefined] and does not throw.
    The order never lists a key twice when it did not at the start. *)
Theorem index_is_insertion_order
  (st : LocalStorageInterface * localStorage) calls keys0 :
  initialized st → index_of st = Some keys0 →
  let order := insertion_order (keysArrayName st.1) calls keys0 in
  index_of (after calls st) = Some order ∧
  (∀ key v, key ∈ order →
     index_of (perform (Set_ key v) (after calls st)).2 = Some order) ∧
  (sizeSync (after calls st)).1 = Normal (Num (Z.of_nat (length order))) ∧
  (∀ i, 0 ≤ i < Z.of_nat (length order) →
     ∃ key, order !! Z.to_nat i = Some key ∧
            (keySync i (after calls st)).1 = Normal (Str key)) ∧
  (∀ i, ¬ (0 ≤ i < Z.of_nat (length order)) →
     (keySync i (after calls st)).1 = Normal Undefined) ∧
  (NoDup keys0 → NoDup order).
Proof.
  intros Hinit Hidx0 order.
  pose proof (index_of_after calls st keys0 Hinit Hidx0) as Hidx.
  fold order in Hidx.
  destruct (after_initialized calls st Hinit) as (Hinit' & _ & Hkn & _).
  split_and!.
  - done.
  - intros key v Hin.
    rewrite (index_of_perform _ _ order Hinit' Hidx). simpl.
    unfold insert_key. case_bool_decide; [done|].
    by rewrite bool_decide_eq_true_2.
  - by rewrite (sizeSync_typed _ _ Hidx).
  - intros i [Hi1 Hi2]. rewrite (keySync_typed _ _ _ Hidx). simpl.
    rewrite (proj2 (Z.leb_le 0 i) Hi1).
    destruct (order !! Z.to_nat i) as [key|] eqn:Hlk.
    + by exists key.
    + apply lookup_ge_None in Hlk. lia.
  - intros i Hi. rewrite (keySync_typed _ _ _ Hidx). simpl.
    destruct (0 <=? i) eqn:Hle; [|done].
    apply Z.leb_le in Hle.
    rewrite (proj2 (lookup_ge_None order (Z.to_nat i))); [done|lia].
  - by apply insertion_order_NoDup.
Qed.

Lemma index_is_insertion_order_witness :
  let calls := [Set_ "a" (Num 1); Set_ "b" (Num 2);
                Set_ "c" (Num 3); Set_ "a" (Num 4);
                Remove "b"] in
  index_of (after calls fresh_default) = Some ["a"; "c"] ∧
  (sizeSync (after calls fresh_default)).1 = Normal (Num 2) ∧
  (keySync 1 (after calls fresh_default)).1 = Normal (Str "c") ∧
  (keySync 2 (after calls fresh_default)).1 = Normal Undefined ∧
  (keySync (-1) (after calls fresh_default)).1 = Normal Undefined.
Proof.
  intros calls.
  destruct (index_is_insertion_order fresh_default calls []
              fresh_default_initialized eq_refl)
    as (Hidx & _ & Hsize & Hin & Hout & _).
  split_and!.
  - exact Hidx.
  - exact Hsize.
  - destruct (Hin 1) as (key & Hkey & Hget); [change (0 ≤ 1 < 2); lia|].
    change (Some "c" = Some key) in Hkey. injection Hkey as <-. exact Hget.
  - apply Hout. change (¬ (0 ≤ 2 < 2)). lia.
  - apply Hout. change (¬ (0 ≤ -1 < 2)). lia.
Defined.

(** ** Removing *)

Lemma filter_absent (key : string) (keys : list string) :
  key ∉ keys → filter (λ savedKey, savedKey ≠ key) keys = keys.
Proof.
  induction keys as [|k keys IH]; intros Hnin; [done|].
  apply not_elem_of_cons in Hnin as [Hne Hnin].
  rewrite filter_cons_True by done. by rewrite IH.
Qed.

Lemma filter_removed (key : string) (keys : list string) :
  key ∉ filter (λ savedKey, savedKey ≠ key) keys.
Proof. intros [Hne _]%list_elem_of_filter. done. Qed.

(** C7. In an initialized namespace [remove] never throws; [get] of the
    removed key then returns [undefined]; when the key is not in the index,
    as for a key never set, the index is left with the same content; and
    removing the key a second time completes and leaves the instance and the
    medium exactly as the first removal left them. *)
Theorem remove_idempotent (st : LocalStorageInterface * localStorage) key :
  initialized st →
  (removeItemSync key st).1 = Normal tt ∧
  (getItemSync key (removeItemSync key st).2).1 = Normal Undefined ∧
  (∀ keys, index_of st = Some keys → key ∉ keys →
     index_of (removeItemSync key st).2 = Some keys) ∧
  removeItemSync key (removeItemSync key st).2
    = (Normal tt, (removeItemSync key st).2).
Proof.
  intros Hinit.
  destruct (initialized_index _ Hinit) as (keys & Hidx & _).
  destruct (removeItemSync_spec st key keys Hinit Hidx)
    as (st' & Hrun & Hinit' & Hsn & Hkn & Hc & Hidx' & Habs & _ & _ & Hslot).
  rewrite Hrun. simpl. split_and!.
  - done.
  - destruct Hinit' as (_ & _ & Hm').
    destruct (getItemSync_spec st' key (λ H, proj2 (Hm' H)))
      as (r & st'' & -> & _ & _ & _ & _ & _ & _ & _ & _ & Hnone & _).
    simpl. apply Hnone. by rewrite Hsn.
  - intros keys' Hk Hnin. rewrite Hidx in Hk. injection Hk as <-.
    by rewrite Hidx', filter_absent.
  - pose proof (initialized_record _ _ Hinit' Hidx') as Hrec.
    destruct st' as [i' m'].
    rewrite (removeItemSync_typed i' m' key _ Hidx'). cbv zeta.
    rewrite (filter_absent key (filter _ keys)) by apply filter_removed.
    simpl in *. f_equal. f_equal.
    + destruct (useCache i') eqn:Hc'; [|done].
      rewrite <- (index_of_cached i' m' _ Hc' Hidx').
      rewrite (delete_id _ _ (Hslot (eq_sym Hc))).
      unfold set_keysArrayCache, set_keyValueCache. simpl. by destruct i'.
    + rewrite (insert_id _ _ _ Hrec). apply delete_id. by rewrite Hsn.
Qed.

Lemma remove_idempotent_witness :
  let st := after [Set_ "value" (Num 4); Set_ "other" Null] fresh_one in
  (getItemSync "value" (removeItemSync "value" st).2).1 = Normal Undefined ∧
  index_of (removeItemSync "never" st).2 = Some ["value"; "other"] ∧
  removeItemSync "value" (removeItemSync "value" st).2
    = (Normal tt, (removeItemSync "value" st).2).
Proof.
  intros st.
  assert (Hinit : initialized st).
  { apply after_initialized. exact fresh_one_initialized. }
  split_and!.
  - exact (proj1 (proj2 (remove_idempotent st "value" Hinit))).
  - apply (proj1 (proj2 (proj2 (remove_idempotent st "never" Hinit)))).
    + reflexivity.
    + change ("never" ∉ ["value"; "other"]). rewrite !not_elem_of_cons.
      split_and!; [discriminate..|apply not_elem_of_nil].
  - exact (proj2 (proj2 (proj2 (remove_idempotent st "value" Hinit)))).
Defined.

(** ** A namespace without its index record *)

(** C8. When the medium holds no index record under the index key of an
    instance, reading the index from the medium throws the "not found"
    error, and so does, with the cache disabled, every method that reads
    it: [set] (of a key other than the reserved one, which is rejected before
    the read), [remove], [clear], [size] and [keyAt].  None of them changes
    the instance or the medium. *)
Theorem missing_index_not_found (i : LocalStorageInterface)
  (m : localStorage) :
  m !! keysArrayName i = None →
  let err := Error ("storage-facade: " +:+ interfaceName +:+ ": " +:+ "'"
                    +:+ keysArrayName i +:+ "' not found.") in
  getKeysArray (i, m) = (Throw err, (i, m)) ∧
  (useCache i = false →
   (∀ key v, key ≠ keysArrayName i →
      setItemSync key v (i, m) = (Throw err, (i, m))) ∧
   (∀ key, removeItemSync key (i, m) = (Throw err, (i, m))) ∧
   clearSync (i, m) = (Throw err, (i, m)) ∧
   sizeSync (i, m) = (Throw err, (i, m)) ∧
   (∀ index, keySync index (i, m) = (Throw err, (i, m)))).
Proof.
  intros Habs err.
  assert (Hget : getKeysArray (i, m) = (Throw err, (i, m))).
  { unfold getKeysArray. step_js. simpl. by rewrite Habs. }
  split; [done|]. intros Hc.
  apply (index_methods_throw (i, m) err).
  unfold read_index. simpl. by rewrite Hc, Habs.
Qed.

Lemma missing_index_not_found_witness :
  sizeSync (fresh_default.1, (∅ : localStorage))
  = (Throw (Error "storage-facade: LocalStorageInterface: '__storage-keys-array' not found."),
     (fresh_default.1, ∅)).
Proof.
  destruct (missing_index_not_found fresh_default.1 ∅ (lookup_empty _))
    as (_ & Hops).
  destruct (Hops eq_refl) as (_ & _ & _ & Hsize & _).
  exact Hsize.
Defined.

(** ** Initialization never throws *)

(** C9. On any medium, whatever it does, [initSync] returns: it never
    throws.  If the index read throws, or the creation of the empty index
    throws, or parsing the index found for the cache throws, that exception
    is the value returned; otherwise no error is returned: when the index
    was absent the medium is the one left by writing the empty index under
    the index key, and when it was found and the cache is requested the
    cached index is the parsed record, whatever document that is (nothing
    checks that it is an array of strings). *)
Theorem initSync_never_throws {M} `{!Storage M} (setup : Setup)
  (i : LocalStorageInterface) (m : M) :
  let kn := index_key (default defaultStorageName (name setup)) in
  let uc := default defaultUseCache (setup_useCache setup) in
  ∃ (r : option exn) (st' : LocalStorageInterface * M),
    initSync setup (i, m) = (Normal r, st') ∧
    match getItem kn m with
    | (Throw e, m1) => r = Some e ∧ st'.2 = m1
    | (Normal None, m1) =>
        match setItem kn (JSON_stringify_keys (JArr [])) m1 with
        | (Throw e, m2) => r = Some e ∧ st'.2 = m2
        | (Normal _, m2) => r = None ∧ st'.2 = m2
        end
    | (Normal (Some keysStr), m1) =>
        st'.2 = m1 ∧
        if uc then
          match JSON_parse keysStr with
          | Throw e => r = Some e
          | Normal d => r = None ∧ keysArrayCache st'.1 = d
          end
        else r = None ∧ keysArrayCache st'.1 = keysArrayCache i
    end.
Proof.
  intros kn uc. unfold initSync. step_js. simpl.
  fold kn uc.
  destruct (getItem kn m) as [[[t|]|e] m1]; simpl.
  - destruct uc; simpl; [|by eexists _, _].
    destruct (JSON_parse t) as [d|e]; simpl; by eexists _, _.
  - destruct (setItem kn _ m1) as [[[]|e] m2]; simpl; by eexists _, _.
  - by eexists _, _.
Qed.

(** The three ways to an error value, and the ways to none. *)
Example initSync_read_throws :
  (initSync setup_one (new_LocalStorageInterface, Disabled)).1
  = Normal (Some (DOMException "SecurityError")).
Proof. reflexivity. Qed.

Example initSync_creation_throws :
  (initSync setup_one (new_LocalStorageInterface, Full ∅)).1
  = Normal (Some (DOMException "QuotaExceededError")).
Proof. reflexivity. Qed.

Example initSync_cache_load_throws :
  (initSync setup_one
     (new_LocalStorageInterface,
      ({[ "__storageOne-keys-array" := NotJson "[" ]} : localStorage))).1
  = Normal (Some SyntaxError).
Proof. reflexivity. Qed.

(** An index record that is JSON but no array of strings is loaded as it
    is: no error is returned, and [size] then answers from that document. *)
Example initSync_loads_any_document :
  (initSync setup_one
     (new_LocalStorageInterface,
      ({[ "__storageOne-keys-array" := Json (JObj [("a", JNum 1)]) ]}
         : localStorage))).1 = Normal None
  ∧ (sizeSync
       (initSync setup_one
          (new_LocalStorageInterface,
           ({[ "__storageOne-keys-array" := Json (JArr [JNum 1; JNum 2]) ]}
              : localStorage))).2).1 = Normal (Num 2)
  ∧ (sizeSync
       (initSync setup_one
          (new_LocalStorageInterface,
           ({[ "__storageOne-keys-array" := Json (JObj [("a", JNum 1)]) ]}
              : localStorage))).2).1 = Normal Undefined.
Proof. split_and!; reflexivity. Qed.

(** On the medium that never throws: a first initialization creates the
    empty index. *)
Example initSync_creates_index :
  initSync setup_one (new_LocalStorageInterface, (∅ : localStorage))
  = (Normal None,
     (set_names "storageOne" "__storageOne-keys-array" true
        new_LocalStorageInterface,
      {[ "__storageOne-keys-array" := Json (JArr []) ]})).
Proof. reflexivity. Qed.

(** ** Setting [undefined] *)

(** C10. In an initialized namespace, [set(key, undefined)] of a key not yet
    in the index (and other than the reserved one) completes and appends the
    key to the index: [size] counts it, [keyAt] returns it at the last
    position, and the medium holds an Entry record for it, the text of the
    empty object.  Yet [get(key)] returns [undefined], which is also what
    [get] returns for a key that has no Entry: [get] does not tell the two
    apart, [size] and [keyAt] do. *)
Theorem set_undefined_is_indexed
  (st : LocalStorageInterface * localStorage) key keys :
  initialized st → key ≠ keysArrayName st.1 →
  index_of st = Some keys → key ∉ keys →
  (setItemSync key Undefined st).1 = Normal tt ∧
  index_of (setItemSync key Undefined st).2 = Some (keys ++ [key])%list ∧
  (sizeSync (setItemSync key Undefined st).2).1
    = Normal (Num (Z.of_nat (length keys) + 1)) ∧
  (keySync (Z.of_nat (length keys)) (setItemSync key Undefined st).2).1
    = Normal (Str key) ∧
  (setItemSync key Undefined st).2.2 !! physical_key (storageName st.1) key
    = Some (Json (JObj [])) ∧
  (getItemSync key (setItemSync key Undefined st).2).1 = Normal Undefined ∧
  (∀ key', (setItemSync key Undefined st).2.2
             !! physical_key (storageName st.1) key' = None →
           (getItemSync key' (setItemSync key Undefined st).2).1
           = Normal Undefined).
Proof.
  intros Hinit Hk Hidx Hnin.
  destruct (setItemSync_spec st key Undefined keys Hinit Hk Hidx)
    as (r & st' & Hrun & Hinit' & Hsn & _ & Hc & Hidx' & _ & _ & Hval & Hok).
  rewrite bool_decide_eq_false_2 in Hidx' by done.
  destruct (Hok eq_refl (λ _, eq_refl)) as [-> Hslot].
  specialize (Hval _ eq_refl).
  rewrite Hrun. simpl. destruct Hinit' as (_ & _ & Hm').
  split_and!; try done.
  - rewrite (sizeSync_typed _ _ Hidx'). simpl. do 2 f_equal.
    rewrite length_app. simpl. lia.
  - rewrite (keySync_typed _ _ _ Hidx'). simpl.
    rewrite (proj2 (Z.leb_le 0 _)) by lia.
    by rewrite Nat2Z.id, lookup_app_r, Nat.sub_diag.
  - destruct (getItemSync_spec st' key (λ H, proj2 (Hm' H)))
      as (r & st'' & -> & _ & _ & _ & _ & _ & _ & _ & _ & _ & Hhit & Hmiss).
    simpl. destruct (useCache st'.1) eqn:Huc.
    + rewrite (Hhit Undefined eq_refl); [done|]. apply Hslot. congruence.
    + by rewrite (Hmiss eq_refl), Hsn, Hval.
  - intros key' Habs.
    destruct (getItemSync_spec st' key' (λ H, proj2 (Hm' H)))
      as (r & st'' & -> & _ & _ & _ & _ & _ & _ & _ & _ & Hnone & _).
    simpl. apply Hnone. by rewrite Hsn.
Qed.

Lemma set_undefined_is_indexed_witness :
  let st := (setItemSync "value" Undefined fresh_default).2 in
  (sizeSync st).1 = Normal (Num 1) ∧
  (keySync 0 st).1 = Normal (Str "value") ∧
  st.2 !! "storage-value" = Some (Json (JObj [])) ∧
  (getItemSync "value" st).1 = Normal Undefined ∧
  (getItemSync "other" st).1 = Normal Undefined.
Proof.
  intros st.
  destruct (set_undefined_is_indexed fresh_default "value" [])
    as (_ & _ & Hsize & Hkey & Hentry & Hget & Hnever).
  - exact fresh_default_initialized.
  - discriminate.
  - reflexivity.
  - apply not_elem_of_nil.
  - split_and!; [exact Hsize | exact Hkey | exact Hentry | exact Hget |].
    apply Hnever. reflexivity.
Defined.

(** * Further properties of the methods *)

(** ** Reading *)

(** X1. [get] never writes to the medium, and reading is repeatable: a
    second [get] of the same key right after the first gives the same
    completion (value or exception) and changes nothing any more. *)
Theorem get_repeatable (st : LocalStorageInterface * localStorage) key :
  (getItemSync key st).2.2 = st.2 ∧
  getItemSync key (getItemSync key st).2
  = ((getItemSync key st).1, (getItemSync key st).2).
Proof.
  destruct st as [i m]. rewrite (getItemSync_run i m).
  destruct (useCache i) eqn:Hc.
  - destruct (keyValueCache i !! key) as [w|] eqn:Hw.
    { split; [done|]. simpl. by rewrite getItemSync_run, Hc, Hw. }
    destruct (m !! physical_key (storageName i) key) as [[d|]|] eqn:Hp;
      [destruct (destructure_value d) as [w|e] eqn:Hd|..];
      (split; [done|]); simpl; rewrite getItemSync_run; simpl;
      rewrite ?Hc, ?Hw, ?Hp, ?Hd; try done.
    by rewrite lookup_insert_eq, (structuredClone_decoded d w Hd).
  - destruct (m !! physical_key (storageName i) key) as [[d|]|] eqn:Hp;
      [destruct (destructure_value d) as [w|e] eqn:Hd|..];
      (split; [done|]); simpl; rewrite getItemSync_run; simpl;
      by rewrite ?Hc, ?Hp, ?Hd.
Qed.

(** X2. In an initialized namespace, [set] and [remove] of one key leave
    what [get] answers for every other key as it was, whatever the value
    that is set. *)
Theorem other_keys_untouched
  (st : LocalStorageInterface * localStorage) key key' v :
  initialized st → key' ≠ key →
  (getItemSync key' (setItemSync key v st).2).1 = (getItemSync key' st).1 ∧
  (getItemSync key' (removeItemSync key st).2).1 = (getItemSync key' st).1.
Proof.
  intros Hinit Hne.
  destruct (initialized_index _ Hinit) as (keys & Hidx & _).
  pose proof Hinit as (Hn & _ & Hm).
  assert (Hpk : physical_key (storageName st.1) key'
                ≠ physical_key (storageName st.1) key).
  { intros Heq. by apply physical_key_inj in Heq. }
  assert (Hkn : physical_key (storageName st.1) key' ≠ keysArrayName st.1).
  { rewrite Hn. apply physical_key_ne_index_key. }
  split.
  - destruct (decide (key = keysArrayName st.1)) as [->|Hk].
    { by rewrite setItemSync_reserved. }
    destruct (setItemSync_spec st key v keys Hinit Hk Hidx)
      as (r & st' & -> & _ & Hsn & _ & Hc & _ & Hframe & Hslots & _).
    simpl. apply getItemSync_ext; try done.
    + intros _. by apply Hslots.
    + by apply Hframe.
  - destruct (removeItemSync_spec st key keys Hinit Hidx)
      as (st' & -> & _ & Hsn & _ & Hc & _ & _ & Hframe & Hslots & _).
    simpl. apply getItemSync_ext; try done.
    + intros _. by apply Hslots.
    + by apply Hframe.
Qed.

Lemma other_keys_untouched_witness :
  let st := after [Set_ "value" (Num 4); Set_ "other" Null] fresh_default in
  (getItemSync "value" (setItemSync "other" (BigInt 7) st).2).1
    = Normal (Num 4) ∧
  (getItemSync "value" (removeItemSync "other" st).2).1
    = Normal (Num 4).
Proof.
  intros st.
  assert (Hinit : initialized st).
  { apply after_initialized. exact fresh_default_initialized. }
  destruct (other_keys_untouched st "other" "value" (BigInt 7) Hinit)
    as [Hset Hrem]; [discriminate|].
  split; [exact Hset | exact Hrem].
Defined.

(** ** Reopening a namespace *)

(** X3. What an initialized namespace has stored outlives the instance: a
    new instance initialized under the same name on the medium it left, with
    or without the cache, reports no error, writes nothing, sees the same
    index, and answers every [get] with the decoded Entry of the key.  That
    is the answer of the old instance too, unless the old instance answers
    from its value cache with a value that is not the decoded Entry (a
    [NaN] or a date it has set, say): the answers are the same when the old
    instance does not cache, or has not cached the key, or has cached the
    decoded Entry. *)
Theorem reopen_restores (st : LocalStorageInterface * localStorage)
  (setup : Setup) :
  initialized st →
  default defaultStorageName (name setup) = storageName st.1 →
  (initSync setup (new_LocalStorageInterface, st.2)).1 = Normal None ∧
  (initSync setup (new_LocalStorageInterface, st.2)).2.2 = st.2 ∧
  initialized (initSync setup (new_LocalStorageInterface, st.2)).2 ∧
  keyValueCache (initSync setup (new_LocalStorageInterface, st.2)).2.1 = ∅ ∧
  index_of (initSync setup (new_LocalStorageInterface, st.2)).2 = index_of st ∧
  (∀ key, (getItemSync key (initSync setup (new_LocalStorageInterface, st.2)).2).1
          = read_entry (st.2 !! physical_key (storageName st.1) key)) ∧
  (∀ key,
     useCache st.1 = false ∨ keyValueCache st.1 !! key = None ∨
     (∃ v, keyValueCache st.1 !! key = Some v ∧
           persisted_value st.1 st.2 key = Some v) →
     (getItemSync key (initSync setup (new_LocalStorageInterface, st.2)).2).1
     = (getItemSync key st).1).
Proof.
  intros Hinit Hname.
  destruct (initialized_index _ Hinit) as (keys & Hidx & Hpk).
  pose proof Hinit as (Hn & _ & Hm).
  pose proof (persisted_keys_inv _ _ _ Hpk) as Hrec.
  rewrite Hn, <- Hname in Hrec.
  assert (Hdec : index_absent_or_decodable
                   (default defaultStorageName (name setup)) st.2).
  { unfold index_absent_or_decodable. rewrite Hrec, string_array_strings.
    by eexists. }
  destruct (initSync_initialized setup st.2 Hdec)
    as (Hok & Hinit' & Hsn & Hc & Hkv).
  assert (Hmed : (initSync setup (new_LocalStorageInterface, st.2)).2.2 = st.2).
  { rewrite initSync_run. cbv zeta. rewrite Hrec.
    by destruct (default defaultUseCache _). }
  assert (Hpk' : persisted_keys
                   (initSync setup (new_LocalStorageInterface, st.2)).2.1
                   (initSync setup (new_LocalStorageInterface, st.2)).2.2
                 = Some keys).
  { apply persisted_keys_written. rewrite Hmed.
    destruct (initSync_names setup (new_LocalStorageInterface, st.2))
      as (_ & -> & _). done. }
  assert (Hnew : ∀ key,
    (getItemSync key (initSync setup (new_LocalStorageInterface, st.2)).2).1
    = read_entry (st.2 !! physical_key (storageName st.1) key)).
  { intros key.
    destruct (initSync setup (new_LocalStorageInterface, st.2)) as [r [i' m']].
    simpl in *. subst m'. rewrite getItemSync_run, Hkv, lookup_empty, Hsn, Hname.
    assert ((if useCache i' then None else None) = (None : option value)) as ->
      by by destruct (useCache i').
    destruct (st.2 !! physical_key (storageName st.1) key) as [[d|]|]; try done.
    simpl. by destruct (destructure_value d). }
  split_and!; try done.
  - rewrite Hidx.
    destruct (initialized_index _ Hinit') as (keys' & Hidx' & Hpk'').
    rewrite Hpk' in Hpk''. by injection Hpk'' as <-.
  - intros key Hcase. rewrite Hnew. destruct st as [i m]. simpl in *.
    rewrite getItemSync_run.
    destruct (useCache i) eqn:Huc.
    + destruct Hcase as [?|[Hnone|(v & Hv & Hp)]]; [done| |].
      * rewrite Hnone.
        destruct (m !! physical_key (storageName i) key) as [[d|]|]; try done.
        simpl. by destruct (destructure_value d).
      * rewrite Hv. unfold persisted_value in Hp.
        destruct (m !! physical_key (storageName i) key) as [[d|]|]; try done.
        simpl. destruct (destructure_value d) as [w|] eqn:Hd; [|done].
        injection Hp as ->. by rewrite (structuredClone_decoded d v Hd).
    + destruct (m !! physical_key (storageName i) key) as [[d|]|]; try done.
      simpl. by destruct (destructure_value d).
Qed.

Lemma reopen_restores_witness :
  let st := after [Set_ "value" NaN; Set_ "other" Null] fresh_one in
  let st' := (initSync setup_one (new_LocalStorageInterface, st.2)).2 in
  index_of st' = Some ["value"; "other"] ∧
  (getItemSync "value" st').1 = Normal Null ∧
  (getItemSync "other" st').1 = (getItemSync "other" st).1.
Proof.
  intros st st'.
  assert (Hinit : initialized st).
  { apply after_initialized. exact fresh_one_initialized. }
  destruct (reopen_restores st setup_one Hinit eq_refl)
    as (_ & _ & _ & _ & Hidx & Hget & Hsame).
  split_and!; [exact Hidx | exact (Hget "value") |].
  apply Hsame. right. right. by exists Null.
Defined.

(** ** The index and the Entries *)

Lemma index_complete_perform (c : call)
  (st : LocalStorageInterface * localStorage) :
  initialized st → index_complete st →
  (∀ key v, c = Set_ key v → encodable v = true) →
  index_complete (perform c st).2.
Proof.
  intros Hinit (keys & Hidx & Hiff) Henc. unfold index_complete.
  destruct (perform_initialized c st Hinit) as (_ & Hsn & _). rewrite Hsn.
  clear Hsn. rewrite perform_state.
  assert (Hne : ∀ k, physical_key (storageName st.1) k ≠ keysArrayName st.1).
  { intros k. rewrite (proj1 Hinit). apply physical_key_ne_index_key. }
  assert (Hinj : ∀ k k', k' ≠ k →
            physical_key (storageName st.1) k' ≠ physical_key (storageName st.1) k).
  { intros k k' Hk Heq. by apply physical_key_inj in Heq. }
  destruct c as [key|key v|key| | |index].
  - destruct Hinit as (_ & _ & Hm).
    destruct (getItemSync_index_of st key (λ H, proj2 (Hm H))) as [Hi Hmed].
    exists keys. by rewrite Hi, Hmed.
  - destruct (decide (key = keysArrayName st.1)) as [->|Hk].
    { rewrite setItemSync_reserved. by exists keys. }
    destruct (setItemSync_spec st key v keys Hinit Hk Hidx)
      as (r & st' & -> & _ & _ & _ & _ & Hidx' & Hframe & _ & Hval & _).
    simpl. eexists. split; [exact Hidx'|]. intros key'.
    destruct (decide (key' = key)) as [->|Hkk].
    + rewrite (Hval _ (JSON_stringify_wrapped_encodable v (Henc _ _ eq_refl))).
      split; [eauto|]. intros _.
      case_bool_decide; [done|]. apply elem_of_app. right.
      by apply list_elem_of_singleton.
    + rewrite Hframe by auto. rewrite <- Hiff.
      case_bool_decide; [done|]. rewrite elem_of_app, list_elem_of_singleton.
      split; [by intros [?|?]|by left].
  - destruct (removeItemSync_spec st key keys Hinit Hidx)
      as (st' & -> & _ & _ & _ & _ & Hidx' & Hval & Hframe & _).
    simpl. eexists. split; [exact Hidx'|]. intros key'.
    rewrite list_elem_of_filter.
    destruct (decide (key' = key)) as [->|Hkk].
    + rewrite Hval. split; [by intros [? _]|by intros [? ?]].
    + rewrite Hframe by auto. rewrite <- Hiff.
      split; [by intros [_ ?]|by split].
  - destruct (clearSync_spec st keys Hinit Hidx)
      as (st' & -> & _ & _ & _ & _ & Hidx' & _ & Hgone & Hframe).
    simpl. eexists. split; [exact Hidx'|]. intros key'.
    rewrite elem_of_nil.
    destruct (decide (key' ∈ keys)) as [Hin|Hnin].
    + rewrite (Hgone _ Hin). split; [done|by intros [? ?]].
    + rewrite Hframe; [by rewrite <- Hiff| |done].
      intros (k & Heq & Hk)%list_elem_of_fmap.
      apply physical_key_inj in Heq. by subst.
  - rewrite (sizeSync_typed _ _ Hidx). by exists keys.
  - rewrite (keySync_typed _ _ _ Hidx). by exists keys.
Qed.

(** A namespace initialized on an empty medium has a complete index. *)
Lemma fresh_index_complete (setup : Setup) :
  index_complete (initSync setup (new_LocalStorageInterface, ∅)).2.
Proof.
  destruct (initSync_initialized setup ∅) as (_ & Hinit & Hsn & _); [done|].
  destruct (initialized_index _ Hinit) as (keys & Hidx & Hpk).
  exists keys. split; [done|].
  revert Hidx Hpk Hsn. rewrite initSync_run. cbv zeta.
  rewrite lookup_empty. simpl. intros Hidx Hpk _.
  unfold persisted_keys in Hpk. simpl in Hpk.
  rewrite lookup_insert_eq in Hpk. injection Hpk as <-.
  intros key. rewrite lookup_insert_ne, lookup_empty.
  - split; [by intros ?%elem_of_nil|by intros [? ?]].
  - intros Heq. symmetry in Heq. by apply physical_key_ne_index_key in Heq.
Qed.

(** X4. The index stays complete: if in an initialized namespace the index
    lists exactly the keys that have an Entry in the medium, then so it does
    after any sequence of calls whose [set] values can be encoded.  (A
    [set] of a value that cannot, a BigInt, throws after the key was added
    to the index and before the Entry is written.) *)
Theorem index_stays_complete calls :
  ∀ st : LocalStorageInterface * localStorage,
  initialized st → index_complete st →
  (∀ key v, Set_ key v ∈ calls → encodable v = true) →
  index_complete (after calls st).
Proof.
  induction calls as [|c calls IH]; intros st Hinit Hcomp Henc; [done|].
  rewrite after_cons. apply IH.
  - by apply perform_initialized.
  - apply index_complete_perform; [done..|].
    intros key v ->. apply (Henc key v), list_elem_of_here.
  - intros key v Hin. apply (Henc key v). by apply list_elem_of_further.
Qed.

Lemma index_stays_complete_witness :
  index_complete
    (after [Set_ "value" NaN; Set_ "other" Undefined;
            Remove "value"; Set_ "value" Func; Clear;
            Set_ "last" (Boolean true)] fresh_one)
  ∧ ¬ index_complete (after [Set_ "value" (BigInt 7)] fresh_one).
Proof.
  split.
  - apply index_stays_complete.
    + exact fresh_one_initialized.
    + exact (fresh_index_complete setup_one).
    + intros key v Hin. rewrite !elem_of_cons, elem_of_nil in Hin.
      destruct Hin as [Hin|[Hin|[Hin|[Hin|[Hin|[Hin|[]]]]]]];
        try discriminate; by injection Hin as -> ->.
  - intros (keys & Hidx & Hiff).
    change (Some ["value"] = Some keys) in Hidx. injection Hidx as <-.
    destruct (proj1 (Hiff "value")) as [t Ht]; [apply list_elem_of_here|].
    discriminate Ht.
Defined.

(** ** How writes compose *)

Lemma store_entry_overwrites (st : LocalStorageInterface * localStorage)
  key v1 v2 :
  encodable v2 = true → (useCache st.1 = true → clonable v2 = true) →
  store_entry key v2 (store_entry key v1 st).2
  = (Normal tt, (store_entry key v2 st).2).
Proof.
  destruct st as [i m]. simpl. intros Henc Hcl. unfold store_entry. simpl.
  rewrite (JSON_stringify_wrapped_encodable v2 Henc).
  destruct (JSON_stringify_wrapped v1) as [t1|e1]; simpl.
  - destruct (useCache i) eqn:Hc; simpl.
    + rewrite (structuredClone_clonable v2 (Hcl eq_refl)).
      destruct (structuredClone v1) as [c1|e1]; simpl; rewrite ?Hc; simpl;
        rewrite insert_insert_eq; [|done].
      unfold set_keyValueCache. simpl. by rewrite insert_insert_eq.
    + rewrite Hc. simpl. by rewrite insert_insert_eq.
  - destruct (useCache i) eqn:Hc; simpl; [|done].
    by rewrite (structuredClone_clonable v2 (Hcl eq_refl)).
Qed.

(** X5. Overwriting leaves no trace: in an initialized namespace, setting a
    key to [v1] and then to [v2] ends in exactly the state (instance and
    medium) that setting it to [v2] alone gives, when the [set] of [v2]
    completes: [v2] can be encoded and, with the cache enabled, cloned.
    This holds whatever [v1] is, also when its [set] throws midway. *)
Theorem set_overwrites (st : LocalStorageInterface * localStorage) key v1 v2 :
  initialized st → key ≠ keysArrayName st.1 →
  encodable v2 = true → (useCache st.1 = true → clonable v2 = true) →
  setItemSync key v2 (setItemSync key v1 st).2
  = (Normal tt, (setItemSync key v2 st).2).
Proof.
  intros Hinit Hk Henc Hcl.
  destruct (initialized_index _ Hinit) as (keys & Hidx & _).
  destruct (setItemSync_spec st key v1 keys Hinit Hk Hidx)
    as (r1 & st1 & Hrun1 & Hinit1 & Hsn & Hkn & Hc & Hidx1 & _).
  destruct st as [i m]. simpl in *.
  rewrite (setItemSync_typed i m key v2 keys Hk Hidx).
  rewrite (setItemSync_typed i m key v1 keys Hk Hidx) in Hrun1 |- *.
  cbv zeta in *.
  set (keys' := if bool_decide (key ∈ keys) then keys
                else (keys ++ [key])%list) in *.
  set (s := (if useCache i then set_keysArrayCache (strings keys') i else i,
             if bool_decide (key ∈ keys) then m
             else <[keysArrayName i := Json (strings keys')]> m)) in *.
  assert (Hin : key ∈ keys').
  { unfold keys'. case_bool_decide; [done|]. apply elem_of_app. right.
    by apply list_elem_of_singleton. }
  assert (Hcs : useCache s.1 = useCache i).
  { unfold s. simpl. destruct (useCache i) eqn:Huc; simpl; by rewrite ?Huc. }
  rewrite Hrun1. simpl. destruct st1 as [i1 m1]. simpl in *.
  rewrite (setItemSync_typed i1 m1 key v2 keys') by congruence.
  cbv zeta. rewrite (bool_decide_eq_true_2 _ Hin).
  assert (Hi1 : (if useCache i1 then set_keysArrayCache (strings keys') i1
                 else i1) = i1).
  { destruct (useCache i1) eqn:Huc; [|done].
    rewrite <- (index_of_cached i1 m1 keys' Huc Hidx1).
    unfold set_keysArrayCache. by rewrite instance_eta. }
  rewrite Hi1.
  replace (i1, m1) with (store_entry key v1 s).2 by by rewrite Hrun1.
  apply store_entry_overwrites; [done|]. intros Hs. apply Hcl.
  rewrite <- Hcs. exact Hs.
Qed.

Lemma set_overwrites_witness :
  setItemSync "value" Null (setItemSync "value" (BigInt 4) fresh_one).2
  = (Normal tt, (setItemSync "value" Null fresh_one).2).
Proof.
  apply (set_overwrites fresh_one "value" (BigInt 4) Null).
  - exact fresh_one_initialized.
  - discriminate.
  - reflexivity.
  - reflexivity.
Defined.

Lemma filter_app_new (key : string) (keys : list string) :
  key ∉ keys → filter (λ savedKey, savedKey ≠ key) (keys ++ [key])%list = keys.
Proof.
  intros Hnin. rewrite filter_app, (filter_absent key keys Hnin).
  rewrite filter_cons_False by (by intros ?). by rewrite app_nil_r.
Qed.

(** The Entry part of [set] changes of the instance at most the cache slot
    of the key. *)
Lemma store_entry_instance (st : LocalStorageInterface * localStorage) key v :
  ∃ c : gmap string value,
    (store_entry key v st).2.1 = set_keyValueCache c st.1 ∧
    (useCache st.1 = false → c = keyValueCache st.1) ∧
    ∀ key', key' ≠ key → c !! key' = keyValueCache st.1 !! key'.
Proof.
  destruct st as [i m]. unfold store_entry. simpl.
  assert (Hsame : ∃ c : gmap string value,
            i = set_keyValueCache c i ∧
            (useCache i = false → c = keyValueCache i) ∧
            ∀ key', key' ≠ key → c !! key' = keyValueCache i !! key').
  { exists (keyValueCache i). split_and!; try done.
    unfold set_keyValueCache. by rewrite instance_eta. }
  destruct (JSON_stringify_wrapped v) as [t|e]; [|done].
  destruct (useCache i) eqn:Hc; [|done].
  destruct (structuredClone v) as [c|e]; [|done]. simpl.
  eexists. split_and!; [done|done|].
  intros key' Hkk. by rewrite lookup_insert_ne.
Qed.

(** X6. Setting a new key and removing it again undoes the write: in an
    initialized namespace, for a key that is not in the index and has no
    Entry, [set] followed by [remove] ends in exactly the state (instance
    and medium) it started from, whatever the value, also when the [set]
    throws midway. *)
Theorem set_remove_restores
  (st : LocalStorageInterface * localStorage) key v keys :
  initialized st → key ≠ keysArrayName st.1 →
  index_of st = Some keys → key ∉ keys →
  st.2 !! physical_key (storageName st.1) key = None →
  removeItemSync key (setItemSync key v st).2 = (Normal tt, st).
Proof.
  intros Hinit Hk Hidx Hnin Habs.
  pose proof (initialized_record _ _ Hinit Hidx) as Hrec.
  destruct (setItemSync_spec st key v keys Hinit Hk Hidx)
    as (r1 & st1 & Hrun1 & _ & Hsn & Hkn & Hc & Hidx1 & Hframe & _).
  rewrite bool_decide_eq_false_2 in Hidx1 by done.
  pose proof Hinit as (Hn & _ & Hm).
  assert (Hne : physical_key (storageName st.1) key ≠ keysArrayName st.1).
  { rewrite Hn. apply physical_key_ne_index_key. }
  destruct st as [i m]. simpl in *.
  rewrite (setItemSync_typed i m key v keys Hk Hidx) in Hrun1 |- *.
  cbv zeta in Hrun1 |- *. rewrite bool_decide_eq_false_2 in Hrun1 |- * by done.
  destruct (store_entry_instance
              (if useCache i then set_keysArrayCache (strings (keys ++ [key])%list) i
               else i,
               <[keysArrayName i := Json (strings (keys ++ [key])%list)]> m)
              key v) as (c & Hinst & Hunc & Hslots).
  rewrite Hrun1 in Hinst |- *. simpl in Hinst, Hunc, Hslots |- *.
  destruct st1 as [i1 m1]. simpl in *.
  rewrite (removeItemSync_typed i1 m1 key _ Hidx1). cbv zeta.
  rewrite filter_app_new by done. rewrite Hsn, Hkn. f_equal. f_equal.
  - destruct (useCache i) eqn:Huc; simpl in *.
    + rewrite Hc. subst i1.
      assert (Hnone : keyValueCache i !! key = None).
      { destruct (keyValueCache i !! key) as [w|] eqn:Hw; [|done].
        destruct (proj2 (Hm eq_refl) key) as [t Ht]; [simpl; by rewrite Hw|].
        simpl in Ht. by rewrite Habs in Ht. }
      assert (Hdel : delete key c = keyValueCache i).
      { apply map_eq. intros key'.
        destruct (decide (key' = key)) as [->|Hkk].
        - by rewrite lookup_delete_eq.
        - rewrite lookup_delete_ne by done. by apply Hslots. }
      unfold set_keysArrayCache, set_keyValueCache. simpl. rewrite Hdel.
      rewrite <- (index_of_cached i m keys Huc Hidx). by destruct i.
    + rewrite Hc. subst i1. rewrite (Hunc Huc).
      unfold set_keyValueCache. by rewrite instance_eta.
  - apply map_eq. intros p.
    destruct (decide (p = physical_key (storageName i) key)) as [->|Hp].
    { by rewrite lookup_delete_eq. }
    rewrite lookup_delete_ne by done.
    destruct (decide (p = keysArrayName i)) as [->|Hp'].
    { by rewrite lookup_insert_eq. }
    rewrite lookup_insert_ne by done. by apply Hframe.
Qed.

Lemma set_remove_restores_witness :
  let st := after [Set_ "value" (Num 4)] fresh_one in
  removeItemSync "other" (setItemSync "other" Null st).2 = (Normal tt, st) ∧
  removeItemSync "other" (setItemSync "other" Func st).2 = (Normal tt, st).
Proof.
  intros st.
  assert (Hinit : initialized st).
  { apply after_initialized. exact fresh_one_initialized. }
  assert (Hnin : "other" ∉ ["value"]).
  { rewrite not_elem_of_cons. split; [discriminate|apply not_elem_of_nil]. }
  split.
  - apply (set_remove_restores st "other" Null ["value"]); try done.
  - apply (set_remove_restores st "other" Func ["value"]); try done.
Defined.

(** ** Clearing and removing *)

Lemma remove_all_order reserved (removed : list string) : ∀ order,
  insertion_order reserved (Remove <$> removed) order
  = foldl (λ acc key, filter (λ savedKey, savedKey ≠ key) acc) order removed.
Proof.
  induction removed as [|k removed IH]; intros order; [done|].
  rewrite fmap_cons. unfold insertion_order in *. simpl. apply IH.
Qed.

Lemma filter_all_removed (removed : list string) : ∀ order : list string,
  (∀ key, key ∈ order → key ∈ removed) →
  foldl (λ acc key, filter (λ savedKey, savedKey ≠ key) acc) order removed = [].
Proof.
  induction removed as [|k removed IH]; intros order Hsub.
  - apply elem_of_nil_inv. intros key Hin. by apply Hsub, elem_of_nil in Hin.
  - simpl. apply IH. intros key [Hne Hin]%list_elem_of_filter.
    apply Hsub, elem_of_cons in Hin as [?|?]; done.
Qed.

(** Removing a list of keys one by one: their Entries are gone and no other
    Entry moves. *)
Lemma after_removes (removed : list string) :
  ∀ st : LocalStorageInterface * localStorage,
  initialized st →
  (∀ key, key ∈ removed →
     (after (Remove <$> removed) st).2
       !! physical_key (storageName st.1) key = None) ∧
  (∀ p, p ∉ physical_key (storageName st.1) <$> removed →
        p ≠ keysArrayName st.1 →
        (after (Remove <$> removed) st).2 !! p = st.2 !! p).
Proof.
  induction removed as [|k removed IH]; intros st Hinit.
  { split; [by intros key ?%elem_of_nil|done]. }
  rewrite fmap_cons, after_cons, perform_state.
  destruct (initialized_index _ Hinit) as (keys & Hidx & _).
  destruct (removeItemSync_spec st k keys Hinit Hidx)
    as (st' & -> & Hinit' & Hsn & Hkn & _ & _ & Hval & Hframe & _).
  simpl. destruct (IH st' Hinit') as [Hgone Hkeep].
  rewrite Hsn, Hkn in *. split.
  - intros key Hin.
    destruct (decide (key ∈ removed)) as [Hr|Hr]; [by apply Hgone|].
    apply elem_of_cons in Hin as [->|?]; [|done].
    rewrite Hkeep; [done| |].
    + intros (k' & Heq & Hk')%list_elem_of_fmap.
      apply physical_key_inj in Heq. by subst.
    + rewrite (proj1 Hinit). apply physical_key_ne_index_key.
  - intros p Hp Hpk. apply not_elem_of_cons in Hp as [Hp1 Hp2].
    rewrite Hkeep by done. by apply Hframe.
Qed.

(** X7. In an initialized namespace, [clear] leaves the medium exactly as
    removing every listed key one by one does, with an empty index either
    way; and a second [clear] changes nothing. *)
Theorem clear_is_remove_all
  (st : LocalStorageInterface * localStorage) keys :
  initialized st → index_of st = Some keys →
  (after (Remove <$> keys) st).2 = (clearSync st).2.2 ∧
  index_of (after (Remove <$> keys) st) = Some [] ∧
  index_of (clearSync st).2 = Some [] ∧
  clearSync (clearSync st).2 = (Normal tt, (clearSync st).2).
Proof.
  intros Hinit Hidx.
  destruct (after_initialized (Remove <$> keys) st Hinit)
    as (Hinit_r & Hsn_r & Hkn_r & _).
  pose proof (index_of_after (Remove <$> keys) st keys Hinit Hidx) as Hidx_r.
  rewrite remove_all_order, filter_all_removed in Hidx_r by done.
  destruct (after_removes keys st Hinit) as [Hgone_r Hkeep_r].
  destruct (clearSync_spec st keys Hinit Hidx)
    as (st' & Hrun & Hinit' & Hsn & Hkn & Hc & Hidx' & Hcache & Hgone & Hkeep).
  rewrite Hrun. simpl.
  split_and!; try done.
  - apply map_eq. intros p.
    destruct (decide (p = keysArrayName st.1)) as [->|Hp].
    { rewrite <- Hkn_r at 1. rewrite <- Hkn.
      by rewrite (initialized_record _ _ Hinit_r Hidx_r),
                 (initialized_record _ _ Hinit' Hidx'). }
    destruct (decide (p ∈ physical_key (storageName st.1) <$> keys))
      as [(k & -> & Hk)%list_elem_of_fmap|Hnin].
    + by rewrite Hgone_r, Hgone.
    + by rewrite Hkeep_r, Hkeep.
  - pose proof (initialized_record _ _ Hinit' Hidx') as Hrec.
    destruct st' as [i' m'].
    rewrite (clearSync_typed i' m' [] Hidx'). simpl in *. f_equal. f_equal.
    + destruct (useCache i') eqn:Hc'; [|done].
      specialize (Hcache (eq_sym Hc)).
      pose proof (index_of_cached i' m' [] Hc' Hidx') as Hkc.
      clear -Hkc Hcache. unfold set_keysArrayCache, set_keyValueCache.
      destruct i' as [sn kn uc kc kv]. simpl in *. by subst.
    + by apply insert_id.
Qed.

Lemma clear_is_remove_all_witness :
  let st := after [Set_ "value" (Num 4); Set_ "other" Null] fresh_default in
  (after [Remove "value"; Remove "other"] st).2 = (clearSync st).2.2.
Proof.
  intros st.
  assert (Hinit : initialized st).
  { apply after_initialized. exact fresh_default_initialized. }
  exact (proj1 (clear_is_remove_all st ["value"; "other"] Hinit eq_refl)).
Defined.

(** ** With and without the cache, on any medium *)

(** X8. With the cache enabled, [size], [keyAt] and a [get] of a cached key
    are answered from the mirror alone: on any medium, whatever it holds or
    throws, they complete without touching it and change nothing.  [size]
    and [keyAt] give the length and the element of the cached index: for an
    array of strings the number of keys, and the key at the position or
    [undefined]; for a cached index that is no array, what [.length] and
    [[index]] give on that document.  [get] gives the clone of the cached
    value: the value itself, for a value that can be cloned, as every value
    that the adapter has cached.  (So a cached instance does not see what
    another instance writes.) *)
Theorem cached_reads_skip_medium {M} `{!Storage M}
  (i : LocalStorageInterface) (m : M) :
  useCache i = true →
  sizeSync (i, m) = (keysArray_length (keysArrayCache i), (i, m)) ∧
  (∀ index,
     keySync index (i, m) = (keysArray_at (keysArrayCache i) index, (i, m))) ∧
  (∀ key v, keyValueCache i !! key = Some v →
            getItemSync key (i, m) = (structuredClone v, (i, m))) ∧
  (∀ keys, keysArrayCache i = strings keys →
     sizeSync (i, m) = (Normal (Num (Z.of_nat (length keys))), (i, m)) ∧
     ∀ index,
       keySync index (i, m)
       = (Normal match (if 0 <=? index then keys !! Z.to_nat index
                        else None) with
                 | Some key => Str key
                 | None => Undefined
                 end, (i, m))) ∧
  (∀ key v, keyValueCache i !! key = Some v → clonable v = true →
            getItemSync key (i, m) = (Normal v, (i, m))).
Proof.
  intros Hc.
  assert (Hsize : sizeSync (i, m) = (keysArray_length (keysArrayCache i), (i, m))).
  { unfold sizeSync, current_keysArray. step_js. by rewrite Hc. }
  assert (Hkey : ∀ index,
    keySync index (i, m) = (keysArray_at (keysArrayCache i) index, (i, m))).
  { intros index. unfold keySync, current_keysArray. step_js. by rewrite Hc. }
  assert (Hget : ∀ key v, keyValueCache i !! key = Some v →
                          getItemSync key (i, m) = (structuredClone v, (i, m))).
  { intros key v Hv. unfold getItemSync. step_js. by rewrite Hc, Hv. }
  split_and!; try done.
  - intros keys Hkeys. split.
    + by rewrite Hsize, Hkeys, length_strings.
    + intros index. by rewrite Hkey, Hkeys, at_strings.
  - intros key v Hv Hcl. by rewrite (Hget key v Hv), structuredClone_clonable.
Qed.

Lemma cached_reads_skip_medium_witness :
  sizeSync (cached_two, Disabled) = (Normal (Num 2), (cached_two, Disabled)) ∧
  keySync 1 (cached_two, Disabled) = (Normal (Str "other"), (cached_two, Disabled)) ∧
  getItemSync "other" (cached_two, Disabled)
  = (Normal Null, (cached_two, Disabled)).
Proof.
  destruct (cached_reads_skip_medium cached_two Disabled eq_refl)
    as (_ & _ & _ & Htyped & Hget).
  destruct (Htyped ["value"; "other"] eq_refl) as [Hsize Hkey].
  split_and!;
    [exact Hsize | exact (Hkey 1) | exact (Hget "other" Null eq_refl eq_refl)].
Defined.

Lemma current_keysArray_uncached {M} `{!Storage M}
  (i : LocalStorageInterface) (m : M) :
  useCache i = false →
  ∃ r m', current_keysArray (i, m) = (r, (i, m')).
Proof.
  intros Hc. unfold current_keysArray, getKeysArray.
  step_js. rewrite Hc.
  destruct (getItem (keysArrayName i) m) as [[[t|]|e] m1]; simpl;
    [|by eauto..].
  destruct (JSON_parse t) as [d|e]; simpl; [|by eauto].
  rewrite Hc. by eauto.
Qed.

Lemma forEach_items_instance {M} `{!Storage M} (i : LocalStorageInterface)
  (f : json → js unit) items :
  (∀ item (m : M), ∃ r m', f item (i, m) = (r, (i, m'))) →
  ∀ m : M, ∃ r m', forEach_items items f (i, m) = (r, (i, m')).
Proof.
  intros Hf. induction items as [|d items IH]; intros m; [by eexists _, _|].
  simpl. unfold bind. destruct (Hf d m) as ([[]|e] & m1 & ->); [|by eauto].
  apply IH.
Qed.

(** X9. With the cache disabled the instance is stateless: on any medium,
    whatever it does, no call changes any field of the instance. *)
Theorem uncached_instance_unchanged {M} `{!Storage M}
  (i : LocalStorageInterface) (m : M) (c : call) :
  useCache i = false → (perform c (i, m)).2.1 = i.
Proof.
  intros Hc. rewrite perform_state.
  destruct c as [key|key v|key| | |index].
  - unfold getItemSync. step_js. rewrite Hc.
    destruct (getItem _ m) as [[[t|]|e] m1]; simpl; try done.
    destruct (JSON_parse t) as [d|e]; simpl; [|done].
    by destruct (destructure_value d).
  - unfold setItemSync. step_js. case_bool_decide; [done|].
    destruct (current_keysArray_uncached i m Hc) as (r & m1 & ->).
    rewrite Hc. destruct r as [keysArray|e]; [|done].
    destruct (keysArray_includes keysArray key) as [[|]|e]; simpl; [| |done].
    + destruct (JSON_stringify_wrapped v) as [t|e]; simpl; [|done].
      by destruct (setItem _ _ m1) as [[[]|e] m2].
    + destruct (keysArray_push keysArray key) as [keysArray'|e]; simpl; [|done].
      destruct (setItem (keysArrayName i) _ m1) as [[[]|e] m2]; simpl; [|done].
      destruct (JSON_stringify_wrapped v) as [t|e]; simpl; [|done].
      by destruct (setItem _ _ m2) as [[[]|e] m3].
  - unfold removeItemSync. step_js.
    destruct (current_keysArray_uncached i m Hc) as (r & m1 & ->).
    rewrite Hc. destruct r as [keysArray|e]; [|done].
    destruct (keysArray_filter keysArray _) as [updated|e]; simpl; [|done].
    destruct (setItem (keysArrayName i) _ m1) as [[[]|e] m2]; simpl; [|done].
    by destruct (removeItem _ m2) as [[[]|e] m3].
  - unfold clearSync. step_js.
    destruct (current_keysArray_uncached i m Hc) as (r & m1 & ->).
    rewrite Hc. destruct r as [keysArray|e]; [|done].
    destruct keysArray as [| | | |items|]; try done.
    unfold keysArray_forEach.
    match goal with |- context [forEach_items items ?f (i, m1)] =>
      destruct (forEach_items_instance i f items) with (m := m1) as (r & m2 & ->)
    end.
    { intros k m0. simpl. destruct (ToString k) as [s|e]; simpl; [|by eauto].
      destruct (removeItem _ m0) as [r m']. by eauto. }
    destruct r as [[]|e]; [|done].
    by destruct (setItem (keysArrayName i) _ m2) as [[[]|e] m3].
  - unfold sizeSync. step_js.
    destruct (current_keysArray_uncached i m Hc) as (r & m1 & ->).
    by destruct r.
  - unfold keySync. step_js.
    destruct (current_keysArray_uncached i m Hc) as (r & m1 & ->).
    by destruct r.
Qed.

Lemma uncached_instance_unchanged_witness :
  (perform (Set_ "value" (Num 4)) fresh_default).2.1 = fresh_default.1 ∧
  (perform Clear (fresh_default.1, Full ∅)).2.1 = fresh_default.1.
Proof.
  split.
  - exact (uncached_instance_unchanged fresh_default.1 fresh_default.2
             (Set_ "value" (Num 4)) eq_refl).
  - exact (uncached_instance_unchanged fresh_default.1 (Full ∅) Clear eq_refl).
Defined.

(** ** When the medium rejects the index write *)

(** X10. On any medium, when the write of the index record throws, [set]
    and [remove] throw that exception before touching any Entry or the value
    mirror.  [remove] leaves the instance as it was.  [set] of a new key
    leaves it as it was only with the cache disabled: with the cache
    enabled the key has already been pushed onto the cached index, which
    then lists a key the persisted index does not. *)
Theorem failed_index_write {M} `{!Storage M}
  (i : LocalStorageInterface) (m m1 m2 : M) keys key e :
  current_keysArray (i, m) = (Normal (strings keys), (i, m1)) →
  (∀ v, key ≠ keysArrayName i → key ∉ keys →
     setItem (keysArrayName i)
       (JSON_stringify_keys (strings (keys ++ [key])%list)) m1
       = (Throw e, m2) →
     setItemSync key v (i, m)
     = (Throw e,
        (if useCache i then set_keysArrayCache (strings (keys ++ [key])%list) i
         else i,
         m2))) ∧
  (setItem (keysArrayName i)
     (JSON_stringify_keys (strings (filter (λ savedKey, savedKey ≠ key) keys)))
     m1
     = (Throw e, m2) →
   removeItemSync key (i, m) = (Throw e, (i, m2))).
Proof.
  intros Hcur. split.
  - intros v Hk Hnin Hset. unfold setItemSync. step_js.
    rewrite (bool_decide_eq_false_2 _ Hk), Hcur.
    rewrite includes_strings, (bool_decide_eq_false_2 _ Hnin).
    unfold strings in Hset |- *. rewrite fmap_app in Hset |- *.
    simpl in Hset |- *.
    destruct (useCache i); simpl; by rewrite Hset.
  - intros Hset. unfold removeItemSync. step_js.
    by rewrite Hcur, filter_strings, Hset.
Qed.

Lemma failed_index_write_witness :
  setItemSync "third" (Num 1) (cached_two, Full ∅)
  = (Throw (DOMException "QuotaExceededError"),
     (set_keysArrayCache (strings ["value"; "other"; "third"]) cached_two,
      Full ∅)) ∧
  removeItemSync "value" (cached_two, Full ∅)
  = (Throw (DOMException "QuotaExceededError"), (cached_two, Full ∅)).
Proof.
  destruct (failed_index_write cached_two (Full ∅) (Full ∅) (Full ∅)
              ["value"; "other"] "third" (DOMException "QuotaExceededError")
              eq_refl) as [Hset _].
  destruct (failed_index_write cached_two (Full ∅) (Full ∅) (Full ∅)
              ["value"; "other"] "value" (DOMException "QuotaExceededError")
              eq_refl) as [_ Hrem].
  split.
  - apply Hset; [discriminate| |reflexivity].
    rewrite !not_elem_of_cons.
    split_and!; [discriminate..|apply not_elem_of_nil].
  - apply Hrem. reflexivity.
Defined.

(** ** An index record that cannot be decoded *)

(** X11. Without the cache, [initSync] does not decode the index it finds:
    on a record that is not JSON it reports no error and writes nothing, and
    the failure surfaces later, as a [SyntaxError] from every method that
    needs the index ([set] of an unreserved key, [remove], [clear], [size],
    [keyAt]), each leaving instance and medium unchanged.  With the cache
    requested, [initSync] itself returns the [SyntaxError]. *)
Theorem undecodable_index_surfaces (setup : Setup) (i : LocalStorageInterface)
  (m : localStorage) s :
  m !! index_key (default defaultStorageName (name setup)) = Some (NotJson s) →
  (default defaultUseCache (setup_useCache setup) = true →
   (initSync setup (i, m)).1 = Normal (Some SyntaxError)) ∧
  (default defaultUseCache (setup_useCache setup) = false →
   (initSync setup (i, m)).1 = Normal None ∧
   (initSync setup (i, m)).2.2 = m ∧
   (∀ key v, key ≠ index_key (default defaultStorageName (name setup)) →
      setItemSync key v (initSync setup (i, m)).2
      = (Throw SyntaxError, (initSync setup (i, m)).2)) ∧
   (∀ key, removeItemSync key (initSync setup (i, m)).2
           = (Throw SyntaxError, (initSync setup (i, m)).2)) ∧
   clearSync (initSync setup (i, m)).2
     = (Throw SyntaxError, (initSync setup (i, m)).2) ∧
   sizeSync (initSync setup (i, m)).2
     = (Throw SyntaxError, (initSync setup (i, m)).2) ∧
   (∀ index, keySync index (initSync setup (i, m)).2
             = (Throw SyntaxError, (initSync setup (i, m)).2))).
Proof.
  intros Hrec. rewrite initSync_run. cbv zeta. rewrite Hrec.
  split; intros Hc; rewrite Hc; [done|]. simpl.
  split; [done|]. split; [done|].
  set (st := (set_names _ _ false i, m)).
  apply (index_methods_throw st SyntaxError).
  unfold read_index. simpl. by rewrite Hrec.
Qed.

Lemma undecodable_index_surfaces_witness :
  let m : localStorage := {[ "__storage-keys-array" := NotJson "oops" ]} in
  (initSync setup_default (new_LocalStorageInterface, m)).1 = Normal None ∧
  (sizeSync (initSync setup_default (new_LocalStorageInterface, m)).2).1
    = Throw SyntaxError.
Proof.
  intros m.
  destruct (undecodable_index_surfaces setup_default
              new_LocalStorageInterface m "oops" eq_refl) as [_ Hunc].
  destruct (Hunc eq_refl) as (Hok & _ & _ & _ & _ & Hsize & _).
  split; [exact Hok|]. by rewrite Hsize.
Defined.

(** ** Physical keys of one namespace *)

(** X12. For an instance carrying the names [initSync] computes, [keyName]
    maps every logical key, the reserved one included, to a physical key
    other than the index key, and different logical keys to different
    physical keys: no Entry write can land on the index record or on another
    key's Entry. *)
Theorem keyName_separates {M} `{!Storage M}
  (i : LocalStorageInterface) (m : M) key :
  keysArrayName i = index_key (storageName i) →
  ∃ p, keyName key (i, m) = (Normal p, (i, m)) ∧
       p ≠ keysArrayName i ∧
       ∀ key' p', keyName key' (i, m) = (Normal p', (i, m)) →
                  p' = p → key' = key.
Proof.
  intros Hn. exists (physical_key (storageName i) key). split_and!.
  - done.
  - rewrite Hn. apply physical_key_ne_index_key.
  - intros key' p' [= <-] Heq. by apply physical_key_inj in Heq.
Qed.

Lemma keyName_separates_witness :
  ∃ p, keyName "__storageOne-keys-array" fresh_one = (Normal p, fresh_one) ∧
       p ≠ "__storageOne-keys-array".
Proof.
  destruct (keyName_separates fresh_one.1 fresh_one.2
              "__storageOne-keys-array" eq_refl) as (p & Hp & Hne & _).
  exists p. split; [exact Hp | exact Hne].
Defined.

(** ** Reading the index from the medium *)

(** X13. [getKeysArray] returns the persisted index whenever it decodes, and
    with the cache enabled it also replaces the cached index by it, whatever
    the cache held: after the call the cached index is the persisted one and
    [size] answers the persisted count.  The medium is not written. *)
Theorem getKeysArray_refreshes (i : LocalStorageInterface)
  (m : localStorage) keys :
  persisted_keys i m = Some keys →
  getKeysArray (i, m)
  = (Normal (strings keys),
     (if useCache i then set_keysArrayCache (strings keys) i else i, m)) ∧
  index_of (getKeysArray (i, m)).2 = Some keys ∧
  sizeSync (getKeysArray (i, m)).2
  = (Normal (Num (Z.of_nat (length keys))), (getKeysArray (i, m)).2).
Proof.
  intros Hpk.
  assert (Hrun : getKeysArray (i, m)
    = (Normal (strings keys),
       (if useCache i then set_keysArrayCache (strings keys) i else i, m))).
  { unfold getKeysArray. step_js. simpl.
    rewrite (persisted_keys_inv _ _ _ Hpk). simpl. by destruct (useCache i). }
  assert (Hidx : index_of (getKeysArray (i, m)).2 = Some keys).
  { rewrite Hrun. unfold index_of. simpl.
    destruct (useCache i) eqn:Hc; simpl; rewrite ?Hc; [|done].
    apply string_array_strings. }
  split_and!; [done..|]. by apply sizeSync_typed.
Qed.

Lemma getKeysArray_refreshes_witness :
  let stale := set_keysArrayCache (strings ["gone"]) cached_two in
  let m := (after [Set_ "value" (Num 4); Set_ "other" Null] fresh_one).2 in
  (sizeSync (stale, m)).1 = Normal (Num 1) ∧
  (sizeSync (getKeysArray (stale, m)).2).1 = Normal (Num 2).
Proof.
  intros stale m. split; [reflexivity|].
  destruct (getKeysArray_refreshes stale m ["value"; "other"] eq_refl)
    as (_ & _ & Hsize).
  by rewrite Hsize.
Defined.

(** ** Uncached instances of one namespace *)

Lemma current_keysArray_uncached_eq {M} `{!Storage M}
  (i1 i2 : LocalStorageInterface) (m : M) :
  useCache i1 = false → useCache i2 = false →
  keysArrayName i1 = keysArrayName i2 →
  ∃ r m', current_keysArray (i1, m) = (r, (i1, m')) ∧
          current_keysArray (i2, m) = (r, (i2, m')).
Proof.
  intros Hc1 Hc2 Hkn. unfold current_keysArray, getKeysArray.
  step_js. rewrite Hc1, Hc2, Hkn.
  destruct (getItem (keysArrayName i2) m) as [[[t|]|e] m1]; simpl;
    [|by eauto..].
  destruct (JSON_parse t) as [d|e]; simpl; [|by eauto].
  rewrite Hc1, Hc2. by eauto.
Qed.

Lemma forEach_items_instances {M} `{!Storage M} (i1 i2 : LocalStorageInterface)
  (f : json → js unit) items :
  (∀ item (m : M), ∃ r m', f item (i1, m) = (r, (i1, m')) ∧
                           f item (i2, m) = (r, (i2, m'))) →
  ∀ m : M, ∃ r m', forEach_items items f (i1, m) = (r, (i1, m')) ∧
                   forEach_items items f (i2, m) = (r, (i2, m')).
Proof.
  intros Hf. induction items as [|d items IH]; intros m; [by eexists _, _|].
  simpl. unfold bind. destruct (Hf d m) as ([[]|e] & m1 & -> & ->); [|by eauto].
  apply IH.
Qed.

(** X14. Uncached instances of one namespace are interchangeable: on any
    medium, two instances with the cache disabled and the same names give,
    for every call, the same completion and leave the same medium. *)
Theorem uncached_instances_agree {M} `{!Storage M}
  (i1 i2 : LocalStorageInterface) (m : M) (c : call) :
  useCache i1 = false → useCache i2 = false →
  storageName i1 = storageName i2 → keysArrayName i1 = keysArrayName i2 →
  (perform c (i1, m)).1 = (perform c (i2, m)).1 ∧
  (perform c (i1, m)).2.2 = (perform c (i2, m)).2.2.
Proof.
  intros Hc1 Hc2 Hsn Hkn.
  destruct c as [key|key v|key| | |index]; unfold perform.
  - unfold getItemSync. step_js. rewrite Hc1, Hc2, Hsn.
    destruct (getItem _ m) as [[[t|]|e] m1]; simpl; try done.
    destruct (JSON_parse t) as [d|e]; simpl; [|done].
    by destruct (destructure_value d).
  - unfold setItemSync. step_js. rewrite Hkn. case_bool_decide; [done|].
    destruct (current_keysArray_uncached_eq i1 i2 m Hc1 Hc2 Hkn)
      as (r & m1 & -> & ->).
    destruct r as [keysArray|e]; simpl; rewrite ?Hc1, ?Hc2, ?Hsn, ?Hkn; [|done].
    destruct (keysArray_includes keysArray key) as [[|]|e]; simpl;
      rewrite ?Hsn; [| |done].
    + destruct (JSON_stringify_wrapped v) as [t|e]; simpl; [|done].
      by destruct (setItem _ _ m1) as [[[]|e] m2].
    + destruct (keysArray_push keysArray key) as [keysArray'|e]; simpl; [|done].
      destruct (setItem (keysArrayName i2) _ m1) as [[[]|e] m2]; simpl;
        rewrite ?Hsn; [|done].
      destruct (JSON_stringify_wrapped v) as [t|e]; simpl; [|done].
      by destruct (setItem _ _ m2) as [[[]|e] m3].
  - unfold removeItemSync. step_js.
    destruct (current_keysArray_uncached_eq i1 i2 m Hc1 Hc2 Hkn)
      as (r & m1 & -> & ->).
    destruct r as [keysArray|e]; simpl; rewrite ?Hc1, ?Hc2, ?Hsn, ?Hkn; [|done].
    destruct (keysArray_filter keysArray _) as [updated|e]; simpl; [|done].
    destruct (setItem (keysArrayName i2) _ m1) as [[[]|e] m2]; simpl;
      rewrite ?Hsn; [|done].
    by destruct (removeItem _ m2) as [[[]|e] m3].
  - unfold clearSync. step_js.
    destruct (current_keysArray_uncached_eq i1 i2 m Hc1 Hc2 Hkn)
      as (r & m1 & -> & ->).
    destruct r as [keysArray|e]; simpl; rewrite ?Hc1, ?Hc2, ?Hsn, ?Hkn; [|done].
    destruct keysArray as [| | | |items|]; try done.
    unfold keysArray_forEach.
    match goal with |- context [forEach_items items ?f (i1, m1)] =>
      destruct (forEach_items_instances i1 i2 f items) with (m := m1)
        as (r & m2 & -> & ->)
    end.
    { intros k m0. simpl. rewrite Hsn.
      destruct (ToString k) as [s|e]; simpl; [|by eauto].
      destruct (removeItem _ m0) as [r m']. by eauto. }
    destruct r as [[]|e]; simpl; rewrite ?Hkn; [|done].
    by destruct (setItem (keysArrayName i2) _ m2) as [[[]|e] m3].
  - unfold sizeSync. step_js.
    destruct (current_keysArray_uncached_eq i1 i2 m Hc1 Hc2 Hkn)
      as (r & m1 & -> & ->).
    destruct r as [keysArray|e]; [|done]. simpl.
    by destruct (keysArray_length keysArray).
  - unfold keySync. step_js.
    destruct (current_keysArray_uncached_eq i1 i2 m Hc1 Hc2 Hkn)
      as (r & m1 & -> & ->).
    destruct r as [keysArray|e]; [|done]. simpl.
    by destruct (keysArray_at keysArray index).
Qed.

Lemma uncached_instances_agree_witness :
  let st := after [Set_ "value" (Num 4)] fresh_default in
  let other := (initSync setup_default (new_LocalStorageInterface, st.2)).2.1 in
  (perform (Get "value") (other, st.2)).1 = Normal (AValue (Num 4)) ∧
  (perform Size (other, st.2)).1 = (perform Size st).1.
Proof.
  intros st other. split; [reflexivity|].
  exact (proj1 (uncached_instances_agree other st.1 st.2 Size
                  eq_refl eq_refl eq_refl eq_refl)).
Defined.

(** ** Values that cannot be stored *)

(** X15. [set] encodes the value after it has updated the index: in an
    initialized namespace, [set] of a value that [JSON.stringify] rejects
    (one with a BigInt in it) throws the [TypeError] with the key already
    added to the index, persisted and cached, while the Entry of the key and
    the value cache are as before.  For a new key, [size] then counts a key
    that has no Entry. *)
Theorem unencodable_set_lists_key
  (st : LocalStorageInterface * localStorage) key v keys :
  initialized st → key ≠ keysArrayName st.1 → index_of st = Some keys →
  encodable v = false →
  (setItemSync key v st).1 = Throw TypeError ∧
  index_of (setItemSync key v st).2
    = Some (if bool_decide (key ∈ keys) then keys else (keys ++ [key])%list) ∧
  persisted_keys (setItemSync key v st).2.1 (setItemSync key v st).2.2
    = Some (if bool_decide (key ∈ keys) then keys else (keys ++ [key])%list) ∧
  (setItemSync key v st).2.2 !! physical_key (storageName st.1) key
    = st.2 !! physical_key (storageName st.1) key ∧
  keyValueCache (setItemSync key v st).2.1 = keyValueCache st.1 ∧
  (key ∉ keys →
   (sizeSync (setItemSync key v st).2).1
   = Normal (Num (Z.of_nat (length keys) + 1))).
Proof.
  intros Hinit Hk Hidx Henc.
  destruct (setItemSync_spec st key v keys Hinit Hk Hidx)
    as (r & st' & Hrun & Hinit' & _ & _ & _ & Hidx' & _).
  destruct (initialized_index _ Hinit') as (keys' & Hidx'' & Hpk').
  rewrite Hidx' in Hidx''. injection Hidx'' as <-.
  pose proof Hinit as (Hn & _ & _).
  destruct st as [i m]. simpl in *.
  rewrite (setItemSync_typed i m key v keys Hk Hidx) in Hrun |- *.
  cbv zeta in Hrun |- *. unfold store_entry in Hrun |- *.
  unfold JSON_stringify_wrapped in Hrun |- *. rewrite Henc in Hrun |- *.
  injection Hrun as _ <-. simpl in *.
  split_and!; try done.
  - destruct (bool_decide (key ∈ keys)); [done|].
    rewrite lookup_insert_ne; [done|]. rewrite Hn. intros Heq.
    symmetry in Heq. by apply physical_key_ne_index_key in Heq.
  - by destruct (useCache i).
  - intros Hnin. rewrite (sizeSync_typed _ _ Hidx'). simpl.
    rewrite bool_decide_eq_false_2 by done. do 2 f_equal.
    rewrite length_app. simpl. lia.
Qed.

Lemma unencodable_set_lists_key_witness :
  (setItemSync "big" (Arr [Num 1; BigInt 2]) fresh_one).1 = Throw TypeError ∧
  (sizeSync (setItemSync "big" (Arr [Num 1; BigInt 2]) fresh_one).2).1
    = Normal (Num 1) ∧
  (setItemSync "big" (Arr [Num 1; BigInt 2]) fresh_one).2.2
    !! "storageOne-big" = None.
Proof.
  destruct (unencodable_set_lists_key fresh_one "big" (Arr [Num 1; BigInt 2]) [])
    as (Hthrow & _ & _ & Hentry & _ & Hsize).
  - exact fresh_one_initialized.
  - discriminate.
  - reflexivity.
  - reflexivity.
  - split_and!; [exact Hthrow | | exact Hentry].
    apply Hsize, not_elem_of_nil.
Defined.

(** X16. With the cache enabled, [set] clones the value after it has
    written the Entry: in an initialized namespace, [set] of a value that
    can be encoded but not cloned (one with a function in it) throws the
    [DataCloneError] with the Entry written and the value cache as before.
    A value cached for the key earlier is then still what [get] answers,
    whatever the Entry now holds. *)
Theorem unclonable_set_keeps_cache
  (st : LocalStorageInterface * localStorage) key v keys t :
  initialized st → key ≠ keysArrayName st.1 → index_of st = Some keys →
  useCache st.1 = true →
  JSON_stringify_wrapped v = Normal t → clonable v = false →
  (setItemSync key v st).1 = Throw (DOMException "DataCloneError") ∧
  (setItemSync key v st).2.2 !! physical_key (storageName st.1) key = Some t ∧
  keyValueCache (setItemSync key v st).2.1 = keyValueCache st.1 ∧
  (∀ w, keyValueCache st.1 !! key = Some w →
        (getItemSync key (setItemSync key v st).2).1 = (getItemSync key st).1).
Proof.
  intros Hinit Hk Hidx Hc Ht Hcl.
  destruct st as [i m]. simpl in *.
  rewrite (setItemSync_typed i m key v keys Hk Hidx).
  cbv zeta. unfold store_entry. simpl. rewrite Hc. simpl. rewrite Ht, Hc.
  unfold structuredClone. rewrite Hcl. simpl.
  split_and!; try done.
  - by rewrite lookup_insert_eq.
  - intros w Hw. rewrite !getItemSync_run. simpl. by rewrite Hc, Hw.
Qed.

Lemma unclonable_set_keeps_cache_witness :
  let st := after [Set_ "value" (Num 4)] fresh_one in
  (setItemSync "value" Func st).1 = Throw (DOMException "DataCloneError") ∧
  (setItemSync "value" Func st).2.2 !! "storageOne-value"
    = Some (Json (JObj [])) ∧
  (getItemSync "value" (setItemSync "value" Func st).2).1 = Normal (Num 4).
Proof.
  intros st.
  assert (Hinit : initialized st).
  { apply after_initialized. exact fresh_one_initialized. }
  destruct (unclonable_set_keeps_cache st "value" Func ["value"]
              (Json (JObj [])) Hinit)
    as (Hthrow & Hentry & _ & Hget); try reflexivity; try discriminate.
  split_and!; [exact Hthrow | exact Hentry | exact (Hget (Num 4) eq_refl)].
Defined.
